(** * idb gRPC client: transfer strategy and stream protocol

    A shallow embedding of [idb/client/grpc.py].  The asynchronous methods of
    [GrpcClient] become computations in a small monad that threads the state
    of the client and of the transport, may raise a Python exception, and
    records every action performed on a gRPC stream.  The properties proved
    below are about the recorded actions: which streams a call opens, which
    frames it sends and in which order, when it signals end-of-stream and
    when it receives. *)

From Stdlib Require Import List String Ascii NArith ZArith Bool Arith Lia.
From Stdlib.Strings Require Import Byte.
Import ListNotations.
Local Open Scope string_scope.

Set Implicit Arguments.

(** ** Wire messages ([idb.grpc.idb_pb2]) *)

Definition bytes := list byte.

(** [InstallRequest.APP], [InstallRequest.XCTEST], ... *)
Inductive Destination := APP | XCTEST | DYLIB | DSYM | FRAMEWORK.

(** [Payload(url=..)], [Payload(file_path=..)], [Payload(data=..)]. *)
Inductive Payload :=
| Payload_url (url : string)
| Payload_file_path (file_path : string)
| Payload_data (data : bytes).

(** HID events are opaque to the client: it only translates and forwards
    them. *)
Inductive HIDEvent := HIDEvent_code (code : nat).

(** The request messages built by the methods modelled here.  A constructor
    per keyword-argument shape used in the source. *)
Inductive Request :=
| InstallRequest_destination (destination : Destination)
| InstallRequest_payload (payload : Payload)
| PushRequest_inner (bundle_id dst_path : string)
| PushRequest_payload (payload : Payload)
| AddMediaRequest (payload : Payload)
| PullRequest (bundle_id src_path : string) (dst_path : option string)
| ContactsUpdateRequest (payload : Payload)
| HIDEventRequest (event : HIDEvent).

(** What the companion sends back.  [resp_name] and [resp_uuid] are read by
    install, [resp_data] (the [payload.data] of a pull response) by pull. *)
Record Response := {
  resp_name : string;
  resp_uuid : string;
  resp_data : bytes
}.

Record InstalledArtifact := {
  name : string;
  uuid : string
}.

Record CompanionInfo := {
  host : string;
  port : N;
  is_local : bool
}.

(** [Bundle = Union[str, IO[bytes]]]: a path or URL given as a string, or an
    open binary stream, modelled by the bytes it will deliver. *)
Inductive Bundle :=
| Bundle_str (s : string)
| Bundle_io (io : bytes).

(** ** Exceptions *)

(** The argument an exception is built from: [IdbException(e.message)] gets a
    string, [IdbException(e.args)] gets the tuple of the original
    arguments. *)
Inductive PyArg :=
| PyStr (s : string)
| PyTuple (items : list string).

Inductive Exn :=
| GRPCError (message : string)
| ProtocolError (args : list string)
| StreamTerminatedError (args : list string)
| IdbException (arg : PyArg)
| FileNotFoundError (path : string)
| AttributeError (what : string).

Inductive Result (A : Type) :=
| Return (a : A)
| Raise (e : Exn).

Arguments Return {A} a.
Arguments Raise {A} e.

Definition returned {A} (r : Result A) : bool :=
  match r with Return _ => true | Raise _ => false end.

(** ** Stream actions *)

Inductive Rpc :=
| rpc_install | rpc_push | rpc_pull | rpc_add_media | rpc_contacts_update
| rpc_hid.

(** One action on a stream, or one write into the archive extractor.  Streams
    are named by the order in which the channel opened them. *)
Inductive Event :=
| EvOpen (stream : nat) (rpc : Rpc)
| EvSend (stream : nat) (request : Request)
| EvEnd (stream : nat)
| EvRecv (stream : nat)
| EvClose (stream : nat)
| EvUntar (output_path : string) (chunk : bytes).

(** ** The machine the client runs on *)

Record ArchiveEntry := {
  relativePath : string;
  size : N;
  mode : N
}.

(** What the client reads from its surroundings and never changes: the
    standard library's URL parser, the local filesystem, the companion
    discovery and the block sizes of the two chunkers.

    - [urlparse_scheme s] is [urllib.parse.urlparse(s).scheme];
    - [resolve_strict s] is [Path(s).resolve(strict=True)], [None] when the
      path does not exist (Python raises [FileNotFoundError]);
    - [discovered] is what [direct_companion_manager.get_companion_info]
      returns for the client's target;
    - [read_tree p] lists the files found under the path [p] with their
      relative path, mode bits and content;
    - [subfolder i] names the subfolder given to the [i]-th input path when
      entries are placed in subfolders;
    - [encode_header] is the wire encoding of an archive header. *)
Record Env := {
  urlparse_scheme : string -> string;
  resolve_strict : string -> option string;
  discovered : CompanionInfo;
  read_tree : string -> list (string * N * bytes);
  subfolder : nat -> string;
  encode_header : ArchiveEntry -> bytes;
  tar_block_size : nat;
  io_chunk_size : nat
}.

(** The mutable state: the attributes the decorator stores on the client,
    and the transport.

    - [faults]: the fate of the next transport primitives, oldest first;
      [Some e] makes the primitive raise [e], [None] (or an exhausted list)
      lets it succeed;
    - [inbox]: the messages the companion will deliver, oldest first;
    - [opened]: how many streams the channel has opened so far. *)
Record World := {
  companion_info : option CompanionInfo;
  channel : option (string * N);
  stub : option (string * N);
  faults : list (option Exn);
  inbox : list Response;
  opened : nat
}.

Definition set_companion_info (ci : CompanionInfo) (w : World) : World :=
  {| companion_info := Some ci; channel := channel w; stub := stub w;
     faults := faults w; inbox := inbox w; opened := opened w |}.

Definition set_channel (c : string * N) (w : World) : World :=
  {| companion_info := companion_info w; channel := Some c; stub := stub w;
     faults := faults w; inbox := inbox w; opened := opened w |}.

Definition set_stub (c : option (string * N)) (w : World) : World :=
  {| companion_info := companion_info w; channel := channel w; stub := c;
     faults := faults w; inbox := inbox w; opened := opened w |}.

Definition set_faults (f : list (option Exn)) (w : World) : World :=
  {| companion_info := companion_info w; channel := channel w; stub := stub w;
     faults := f; inbox := inbox w; opened := opened w |}.

Definition set_inbox (i : list Response) (w : World) : World :=
  {| companion_info := companion_info w; channel := channel w; stub := stub w;
     faults := faults w; inbox := i; opened := opened w |}.

Definition set_opened (n : nat) (w : World) : World :=
  {| companion_info := companion_info w; channel := channel w; stub := stub w;
     faults := faults w; inbox := inbox w; opened := n |}.

(** A world in which no transport primitive fails. *)
Definition calm (w : World) : World := set_faults [] w.

(** ** The monad *)

Record Outcome (A : Type) := {
  result : Result A;
  world : World;
  events : list Event
}.

Definition M (A : Type) : Type := World -> Outcome A.

Definition ret {A} (a : A) : M A := fun w =>
  {| result := Return a; world := w; events := [] |}.

Definition raise {A} (e : Exn) : M A := fun w =>
  {| result := Raise e; world := w; events := [] |}.

Definition bind {A B} (m : M A) (k : A -> M B) : M B := fun w =>
  match m w with
  | {| result := Return a; world := w1; events := e1 |} =>
      match k a w1 with
      | {| result := r; world := w2; events := e2 |} =>
          {| result := r; world := w2; events := e1 ++ e2 |}
      end
  | {| result := Raise e; world := w1; events := e1 |} =>
      {| result := Raise e; world := w1; events := e1 |}
  end.

Declare Scope client_scope.
Delimit Scope client_scope with client.
Notation "x <- m ;; k" := (bind m (fun x => k))
  (at level 61, m at next level, right associativity) : client_scope.
Notation "m ;; k" := (bind m (fun _ => k))
  (at level 61, right associativity) : client_scope.
Local Open Scope client_scope.

(** [try: body except e: handler e]. *)
Definition try_except {A} (body : M A) (handler : Exn -> M A) : M A := fun w =>
  match body w with
  | {| result := Return a; world := w1; events := e1 |} =>
      {| result := Return a; world := w1; events := e1 |}
  | {| result := Raise e; world := w1; events := e1 |} =>
      match handler e w1 with
      | {| result := r; world := w2; events := e2 |} =>
          {| result := r; world := w2; events := e1 ++ e2 |}
      end
  end.

(** [try: body finally: cleanup], the exit half of [async with]: the cleanup
    runs on every exit path and the outcome of the body is kept, unless the
    cleanup itself raises. *)
Definition finally {A} (body : M A) (cleanup : M unit) : M A := fun w =>
  match body w with
  | {| result := r; world := w1; events := e1 |} =>
      match cleanup w1 with
      | {| result := Return _; world := w2; events := e2 |} =>
          {| result := r; world := w2; events := e1 ++ e2 |}
      | {| result := Raise e; world := w2; events := e2 |} =>
          {| result := Raise e; world := w2; events := e1 ++ e2 |}
      end
  end.

(** [for x in l: await f(x)]. *)
Fixpoint for_each {A} (f : A -> M unit) (l : list A) : M unit :=
  match l with
  | [] => ret tt
  | x :: rest => f x ;; for_each f rest
  end.

Definition emit (ev : Event) : M unit := fun w =>
  {| result := Return tt; world := w; events := [ev] |}.

Definition modify (f : World -> World) : M unit := fun w =>
  {| result := Return tt; world := f w; events := [] |}.

Definition ask {A} (f : World -> A) : M A := fun w =>
  {| result := Return (f w); world := w; events := [] |}.

(** The events a computation records when started in [w]. *)
Definition call_events {A} (m : M A) (w : World) : list Event := events (m w).

Definition call_result {A} (m : M A) (w : World) : Result A := result (m w).

(** ** Transport primitives ([grpclib]) *)

(** Every transport primitive first meets its fate: the head of the fault
    schedule decides whether it raises. *)
Definition fate : M unit := fun w =>
  match faults w with
  | Some e :: rest =>
      {| result := Raise e; world := set_faults rest w; events := [] |}
  | None :: rest =>
      {| result := Return tt; world := set_faults rest w; events := [] |}
  | [] => {| result := Return tt; world := w; events := [] |}
  end.

(** [self.stub.<rpc>]: the attribute is [None] until the decorator has set
    it. *)
Definition self_stub : M unit := fun w =>
  match stub w with
  | Some _ => ret tt w
  | None => raise (AttributeError "stub") w
  end.

(** [self.companion_info.is_local]. *)
Definition self_is_local : M bool := fun w =>
  match companion_info w with
  | Some ci => ret (is_local ci) w
  | None => raise (AttributeError "companion_info") w
  end.

(** [self.stub.<rpc>.open()] entered by [async with]: the channel hands out
    the next stream. *)
Definition open (rpc : Rpc) : M nat :=
  self_stub ;;
  fate ;;
  stream <- ask opened ;;
  modify (set_opened (S stream)) ;;
  emit (EvOpen stream rpc) ;;
  ret stream.

Definition send_message (stream : nat) (request : Request) : M unit :=
  fate ;; emit (EvSend stream request).

(** [stream.end()]. *)
Definition stream_end (stream : nat) : M unit :=
  fate ;; emit (EvEnd stream).

Definition pop_inbox : M (option Response) := fun w =>
  {| result := Return (hd_error (inbox w));
     world := set_inbox (tl (inbox w)) w;
     events := [] |}.

(** [stream.recv_message()]: the next message of the companion, [None] once
    the companion has nothing more to deliver. *)
Definition recv_message (stream : nat) : M (option Response) :=
  fate ;; emit (EvRecv stream) ;; pop_inbox.

(** [async with self.stub.<rpc>.open() as stream: body]. *)
Definition async_with {A} (rpc : Rpc) (body : nat -> M A) : M A :=
  stream <- open rpc ;;
  finally (body stream) (emit (EvClose stream)).

(** [await self.stub.<rpc>(request)], a unary call of grpclib: the request
    is sent together with end-of-stream on a stream of its own, then the
    single response is received. *)
Definition unary_unary (rpc : Rpc) (request : Request) : M (option Response) :=
  async_with rpc (fun stream =>
    fate ;;
    emit (EvSend stream request) ;;
    emit (EvEnd stream) ;;
    recv_message stream).

(** Python truthiness of a string. *)
Definition truthy (s : string) : bool := negb (s =? "")%string.

(** ** Chunking *)

Fixpoint chunks_fuel (fuel n : nat) (data : bytes) : list bytes :=
  match fuel with
  | 0 => []
  | S fuel' =>
      match data with
      | [] => []
      | _ :: _ => firstn n data :: chunks_fuel fuel' n (skipn n data)
      end
  end.

(** Modelled from the spec: the ContentChunker of section 4.4 and the block
    output of TarContainerCodec.pack (section 4.3) are not among the sources.
    The source is read in blocks of [n] bytes until it is exhausted; the last
    block may be shorter; a read of size 0 returns nothing and ends the
    sequence at once.  One byte of fuel per byte of data is always enough
    ([chunked_concat] below). *)
Definition chunked (n : nat) (data : bytes) : list bytes :=
  match n with
  | 0 => []
  | S _ => chunks_fuel (List.length data) n data
  end.

Section Client.

Variable env : Env.

(** ** The collaborators of [idb.common] and [idb.grpc] *)

(** Modelled from the spec: the archive entry of section 3 for one file found
    under an input path; with [place_in_subfolders] the relative path lies in
    the subfolder of its top-level input path. *)
Definition entry_of (folder : option string) (file : string * N * bytes)
  : ArchiveEntry * bytes :=
  let '(rel, m, content) := file in
  ({| relativePath :=
        match folder with
        | Some d => (d ++ "/" ++ rel)%string
        | None => rel
        end;
      size := N.of_nat (List.length content);
      mode := m |},
   content).

(** Modelled from the spec: the entries TarContainerCodec.pack (section 4.3,
    [idb.common.tar], not among the sources) writes for an ordered sequence of
    paths, the [i]-th of them being the first of [paths]. *)
Fixpoint archive_entries (i : nat) (paths : list string)
  (place_in_subfolders : bool) : list (ArchiveEntry * bytes) :=
  match paths with
  | [] => []
  | p :: rest =>
      map (entry_of (if place_in_subfolders then Some (subfolder env i)
                     else None))
          (read_tree env p)
      ++ archive_entries (S i) rest place_in_subfolders
  end.

(** Modelled from the spec: the archive envelope of section 6, the records
    (header, then exactly [size] bytes of content) concatenated with no
    container-level prefix or padding. *)
Definition archive_bytes (paths : list string) (place_in_subfolders : bool)
  : bytes :=
  flat_map (fun e => (encode_header env (fst e) ++ snd e)%list)
           (archive_entries 0 paths place_in_subfolders).

(** Modelled from the spec: [idb.common.tar.generate_tar] is
    TarContainerCodec.pack (section 4.3), the archive cut into blocks of
    bounded size.  The lazy sequence is modelled by the list of the blocks it
    yields. *)
Definition generate_tar (paths : list string) (place_in_subfolders : bool)
  : list bytes :=
  chunked (tar_block_size env) (archive_bytes paths place_in_subfolders).

(** Modelled from the spec: [idb.common.tar.create_tar] is not among the
    sources and the spec does not name it; the source binds its result to one
    [data] field, so it is the whole archive of section 4.3 as one byte
    string. *)
Definition create_tar (paths : list string) : bytes :=
  archive_bytes paths false.

(** Modelled from the spec: [idb.common.stream.stream_map] is not among the
    sources; it applies a function to each item of a lazy sequence, in
    order (sections 4.5 and 8.3). *)
Definition stream_map {A B} (generator : list A) (f : A -> B) : list B :=
  map f generator.

(** Modelled from the spec: [idb.common.install.generate_requests] is not
    among the sources; it yields the given single reference frame
    (section 4.1, rows RemoteURL and FilesystemPath/Local). *)
Definition generate_requests (requests : list Request) : list Request :=
  requests.

(** Modelled from the spec: [idb.common.install.generate_binary_chunks] is not
    among the sources; section 4.1, row FilesystemPath/Remote: the path is
    handed to TarContainerCodec and the blocks become DataChunk frames. *)
Definition generate_binary_chunks (path : string) (destination : Destination)
  : list Request :=
  stream_map (generate_tar [path] false)
             (fun chunk => InstallRequest_payload (Payload_data chunk)).

(** Modelled from the spec: [idb.common.install.generate_io_chunks] is not
    among the sources; section 4.1, row InMemoryStream: the byte source is
    handed to ContentChunker and the blocks become DataChunk frames. *)
Definition generate_io_chunks (io : bytes) : list Request :=
  stream_map (chunked (io_chunk_size env) io)
             (fun chunk => InstallRequest_payload (Payload_data chunk)).

(** Modelled from the spec: [idb.ipc.mapping.hid.event_to_grpc] is not among
    the sources; section 4.5: a one-to-one translation of an input event into
    a frame. *)
Definition event_to_grpc (event : HIDEvent) : Request :=
  HIDEventRequest event.

(** Modelled from the spec: [idb.grpc.stream.drain_to_stream] is not among the
    sources; it is the ChunkedStreamDrain of section 4.2: send each frame in
    order, stopping at the first failure; signal end-of-stream; perform one
    receive and return the terminal response. *)
Definition drain_to_stream (stream : nat) (generator : list Request)
  : M (option Response) :=
  for_each (send_message stream) generator ;;
  stream_end stream ;;
  recv_message stream.

(** Modelled from the spec: [idb.grpc.stream.generate_bytes] is not among the
    sources; section 4.5: the incoming byte-chunk stream.  One step of the
    generator receives one message and yields its data, and is exhausted when
    the stream delivers nothing more. *)
Definition generate_bytes (stream : nat) : M (option bytes) :=
  item <- recv_message stream ;;
  ret (option_map resp_data item).

Fixpoint drain_untar_steps (n : nat) (generator : M (option bytes))
  (output_path : string) : M unit :=
  chunk <- generator ;;
  match chunk with
  | None => ret tt
  | Some data =>
      emit (EvUntar output_path data) ;;
      match n with
      | 0 => ret tt
      | S n' => drain_untar_steps n' generator output_path
      end
  end.

(** Modelled from the spec: [idb.common.tar.drain_untar] is not among the
    sources; it is TarContainerCodec.unpack (section 4.3): the chunks are
    consumed one by one as they arrive and written under the output path.
    The generator is asked once more than there are messages waiting, the
    last time to learn that it is exhausted ([pull_remote_run] below shows
    that nothing is left unread). *)
Definition drain_untar (generator : M (option bytes)) (output_path : string)
  : M unit := fun w =>
  drain_untar_steps (List.length (inbox w)) generator output_path w.

(** Modelled from the spec: [idb.common.logging.log_call] is not among the
    sources and logging is outside the spec's scope; it is taken to be
    transparent: awaiting the decorated method calls the wrapped function
    and awaits what that call returns. *)
Definition log_call {A} (function : M (M A)) : M A :=
  value <- function ;; value.

(** ** The decorator *)

(** [func_wrapper] is a plain [def]: its [try] covers the lookup of the
    companion, the construction of the channel and of the stub, and the call
    [func(client, ...)].  [func] is an [async def], so that call only builds
    the coroutine object, which is returned out of the [try] before any of
    its body has run; here the coroutine is the computation [func], returned
    as a value.  Nothing inside the [try] touches the transport: the channel
    connects when the first message is sent. *)
Definition func_wrapper {A} (func : M A) : M (M A) :=
  try_except
    (modify (set_companion_info (discovered env)) ;;
     modify (set_channel (host (discovered env), port (discovered env))) ;;
     c <- ask channel ;;
     modify (set_stub c) ;;
     ret func)
    (fun e =>
       match e with
       | GRPCError message => raise (IdbException (PyStr message))
       | ProtocolError args => raise (IdbException (PyTuple args))
       | StreamTerminatedError args => raise (IdbException (PyTuple args))
       | _ => raise e
       end).

Definition log_and_handle_exceptions {A} (func : M A) : M A :=
  log_call (func_wrapper func).

(** ** The methods of [GrpcClient]

    [f_async] is the body of the [async def f] of the source; [f] is the
    decorated method as a caller awaits it. *)

Definition add_media_async (file_paths : list string) : M unit :=
  async_with rpc_add_media (fun stream =>
    local <- self_is_local ;;
    if local then
      for_each
        (fun file_path =>
           send_message stream (AddMediaRequest (Payload_file_path file_path)))
        file_paths ;;
      stream_end stream ;;
      recv_message stream ;;
      ret tt
    else
      let generator :=
        stream_map (generate_tar file_paths true)
                   (fun chunk => AddMediaRequest (Payload_data chunk)) in
      drain_to_stream stream generator ;;
      ret tt).

Definition add_media (file_paths : list string) : M unit :=
  log_and_handle_exceptions (add_media_async file_paths).

Definition contacts_update_async (contacts_path : string) : M unit :=
  let data := create_tar [contacts_path] in
  unary_unary rpc_contacts_update (ContactsUpdateRequest (Payload_data data)) ;;
  ret tt.

Definition contacts_update (contacts_path : string) : M unit :=
  log_and_handle_exceptions (contacts_update_async contacts_path).

Definition _install_to_destination (bundle : Bundle)
  (destination : Destination) : M InstalledArtifact :=
  generator <-
    match bundle with
    | Bundle_str s =>
        if truthy (urlparse_scheme env s) then
          async_with rpc_install (fun stream =>
            ret (generate_requests [InstallRequest_payload (Payload_url s)]))
        else
          match resolve_strict env s with
          | None => raise (FileNotFoundError s)
          | Some file_path =>
              local <- self_is_local ;;
              if local then
                async_with rpc_install (fun stream =>
                  ret (generate_requests
                         [InstallRequest_payload
                            (Payload_file_path file_path)]))
              else
                ret (generate_binary_chunks file_path destination)
          end
    | Bundle_io io => ret (generate_io_chunks io)
    end ;;
  async_with rpc_install (fun stream =>
    send_message stream (InstallRequest_destination destination) ;;
    response <- drain_to_stream stream generator ;;
    match response with
    | Some r => ret {| name := resp_name r; uuid := resp_uuid r |}
    | None => raise (AttributeError "name")
    end).

(** The five decorated entry points differ only in the destination. *)
Definition install_to (destination : Destination) (bundle : Bundle)
  : M InstalledArtifact :=
  log_and_handle_exceptions (_install_to_destination bundle destination).

Definition install := install_to APP.
Definition install_xctest := install_to XCTEST.
Definition install_dylib := install_to DYLIB.
Definition install_dsym := install_to DSYM.
Definition install_framework := install_to FRAMEWORK.

Definition push_async (src_paths : list string) (bundle_id dest_path : string)
  : M unit :=
  async_with rpc_push (fun stream =>
    send_message stream (PushRequest_inner bundle_id dest_path) ;;
    local <- self_is_local ;;
    if local then
      for_each
        (fun src_path =>
           send_message stream (PushRequest_payload (Payload_file_path src_path)))
        src_paths ;;
      stream_end stream ;;
      recv_message stream ;;
      ret tt
    else
      drain_to_stream stream
        (stream_map (generate_tar src_paths false)
                    (fun chunk => PushRequest_payload (Payload_data chunk))) ;;
      ret tt).

Definition push (src_paths : list string) (bundle_id dest_path : string)
  : M unit :=
  log_and_handle_exceptions (push_async src_paths bundle_id dest_path).

Definition pull_async (bundle_id src_path dest_path : string) : M Payload :=
  async_with rpc_pull (fun stream =>
    local <- self_is_local ;;
    let request :=
      PullRequest bundle_id src_path
                  (if local then Some dest_path else None) in
    send_message stream request ;;
    stream_end stream ;;
    local' <- self_is_local ;;
    (if local' then
       recv_message stream ;; ret tt
     else
       drain_untar (generate_bytes stream) dest_path)) ;;
  ret (Payload_file_path dest_path).

Definition pull (bundle_id src_path dest_path : string) : M Payload :=
  log_and_handle_exceptions (pull_async bundle_id src_path dest_path).

Definition hid_async (event_iterator : list HIDEvent) : M unit :=
  async_with rpc_hid (fun stream =>
    let grpc_event_iterator := map event_to_grpc event_iterator in
    drain_to_stream stream grpc_event_iterator ;;
    recv_message stream ;;
    ret tt).

Definition hid (event_iterator : list HIDEvent) : M unit :=
  log_and_handle_exceptions (hid_async event_iterator).

End Client.

(** ** What the spec says, in its own words *)

Inductive SourceVariant := FilesystemPath | RemoteURL | InMemoryStream.

Inductive FrameKind := Metadata | DataChunk | PathRef | URLRef | EventFrame.

(** The decision table of section 4.1: locality [true] is Local. *)
Definition select (source : SourceVariant) (local : bool) : FrameKind :=
  match source, local with
  | RemoteURL, _ => URLRef
  | FilesystemPath, true => PathRef
  | FilesystemPath, false => DataChunk
  | InMemoryStream, _ => DataChunk
  end.

(** The payload frames the table asks for: one URLRef; one PathRef holding
    the resolved path; the blocks of the archive of the path; the blocks of
    the byte source.  A path that does not exist gets no frame at all. *)
Definition strategy_frames (env : Env) (bundle : Bundle) (local : bool)
  : list Request :=
  match bundle with
  | Bundle_io io =>
      map (fun c => InstallRequest_payload (Payload_data c))
          (chunked (io_chunk_size env) io)
  | Bundle_str s =>
      if truthy (urlparse_scheme env s) then
        [InstallRequest_payload (Payload_url s)]
      else
        match resolve_strict env s with
        | None => []
        | Some p =>
            if local then [InstallRequest_payload (Payload_file_path p)]
            else map (fun c => InstallRequest_payload (Payload_data c))
                     (generate_tar env [p] false)
        end
  end.

(** The skeleton section 4.5 gives for every operation, written out for
    contacts_update: resolve locality, build the frame sequence that fits it,
    open a stream, drain the frames into it. *)
Definition contacts_update_skeleton (env : Env) (contacts_path : string)
  : M unit :=
  log_and_handle_exceptions env
    (local <- self_is_local ;;
     let frames :=
       if local then [ContactsUpdateRequest (Payload_file_path contacts_path)]
       else stream_map (generate_tar env [contacts_path] false)
                       (fun chunk => ContactsUpdateRequest (Payload_data chunk))
     in
     async_with rpc_contacts_update (fun stream =>
       drain_to_stream stream frames ;; ret tt)).

(** ** Reading a record of events *)

Definition source_variant (env : Env) (bundle : Bundle) : SourceVariant :=
  match bundle with
  | Bundle_str s =>
      if truthy (urlparse_scheme env s) then RemoteURL else FilesystemPath
  | Bundle_io _ => InMemoryStream
  end.

Definition payload_kind (p : Payload) : FrameKind :=
  match p with
  | Payload_url _ => URLRef
  | Payload_file_path _ => PathRef
  | Payload_data _ => DataChunk
  end.

Definition frame_kind (r : Request) : FrameKind :=
  match r with
  | InstallRequest_destination _ => Metadata
  | PushRequest_inner _ _ => Metadata
  | PullRequest _ _ _ => Metadata
  | InstallRequest_payload p => payload_kind p
  | PushRequest_payload p => payload_kind p
  | AddMediaRequest p => payload_kind p
  | ContactsUpdateRequest p => payload_kind p
  | HIDEventRequest _ => EventFrame
  end.

Definition is_metadata (r : Request) : bool :=
  match frame_kind r with Metadata => true | _ => false end.

(** The requests sent, in the order they were sent. *)
Fixpoint sent (evs : list Event) : list Request :=
  match evs with
  | [] => []
  | EvSend _ r :: rest => r :: sent rest
  | _ :: rest => sent rest
  end.

Definition payload_frames (evs : list Event) : list Request :=
  filter (fun r => negb (is_metadata r)) (sent evs).

Definition is_open (ev : Event) : bool :=
  match ev with EvOpen _ _ => true | _ => false end.

Definition is_end (ev : Event) : bool :=
  match ev with EvEnd _ => true | _ => false end.

Definition is_recv (ev : Event) : bool :=
  match ev with EvRecv _ => true | _ => false end.

Definition opens (evs : list Event) : nat := List.length (filter is_open evs).
Definition ends (evs : list Event) : nat := List.length (filter is_end evs).
Definition receives (evs : list Event) : nat :=
  List.length (filter is_recv evs).

(** The chunks handed to the extractor, with the path they were unpacked
    under, in order. *)
Fixpoint untarred (evs : list Event) : list (string * bytes) :=
  match evs with
  | [] => []
  | EvUntar p c :: rest => (p, c) :: untarred rest
  | _ :: rest => untarred rest
  end.

(** No receive on a stream before end-of-stream was signalled on it:
    [ended] lists the streams already ended. *)
Fixpoint recv_after_end_from (ended : list nat) (evs : list Event) : bool :=
  match evs with
  | [] => true
  | EvEnd s :: rest => recv_after_end_from (s :: ended) rest
  | EvRecv s :: rest =>
      existsb (Nat.eqb s) ended && recv_after_end_from ended rest
  | _ :: rest => recv_after_end_from ended rest
  end.

Definition recv_after_end (evs : list Event) : bool :=
  recv_after_end_from [] evs.

Definition is_prefix {A} (l full : list A) : Prop :=
  exists rest, full = (l ++ rest)%list.

(** The events remote pull records when nothing fails: one receive per
    waiting message, each followed by the unpacking of its data, and a last
    receive that finds the stream exhausted. *)
Definition untar_events (stream : nat) (output_path : string)
  (waiting : list Response) : list Event :=
  (flat_map (fun r => [EvRecv stream; EvUntar output_path (resp_data r)])
            waiting
   ++ [EvRecv stream])%list.

(** What the decorator leaves on the client before the coroutine runs. *)
Definition prepared (env : Env) (w : World) : World :=
  set_stub (Some (host (discovered env), port (discovered env)))
    (set_channel (host (discovered env), port (discovered env))
       (set_companion_info (discovered env) w)).

(** ** The expected records *)

(** What a drain records on stream [s] when nothing fails. *)
Definition drained (s : nat) (frames : list Request) : list Event :=
  (map (EvSend s) frames ++ [EvEnd s; EvRecv s])%list.

(** The frames of a push: the metadata frame, then one PathRef per source
    path (local companion) or the blocks of the archive of all source paths
    (remote companion). *)
Definition push_frames (env : Env) (src_paths : list string)
  (bundle_id dest_path : string) : list Request :=
  PushRequest_inner bundle_id dest_path
  :: (if is_local (discovered env)
      then map (fun p => PushRequest_payload (Payload_file_path p)) src_paths
      else map (fun c => PushRequest_payload (Payload_data c))
               (generate_tar env src_paths false)).

(** The frames of add_media: one PathRef per input path (local companion) or
    the blocks of the archive of all input paths, each in its subfolder
    (remote companion). *)
Definition add_media_frames (env : Env) (file_paths : list string)
  : list Request :=
  if is_local (discovered env)
  then map (fun p => AddMediaRequest (Payload_file_path p)) file_paths
  else map (fun c => AddMediaRequest (Payload_data c))
           (generate_tar env file_paths true).

(** The request of a pull: the destination goes to a local companion
    only. *)
Definition pull_request (env : Env) (bundle_id src_path dest_path : string)
  : Request :=
  PullRequest bundle_id src_path
              (if is_local (discovered env) then Some dest_path else None).

(** What pull records on stream [s] when nothing fails, with [waiting] to
    be delivered. *)
Definition pull_events (env : Env) (s : nat)
  (bundle_id src_path dest_path : string) (waiting : list Response)
  : list Event :=
  EvSend s (pull_request env bundle_id src_path dest_path)
  :: EvEnd s
  :: (if is_local (discovered env) then [EvRecv s]
      else untar_events s dest_path waiting).

(** The frames of an install: the destination, then the frames of the
    decision table. *)
Definition install_frames (env : Env) (destination : Destination)
  (bundle : Bundle) : list Request :=
  InstallRequest_destination destination
  :: strategy_frames env bundle (is_local (discovered env)).

(** The stream that carries an install, complete. *)
Definition install_stream (env : Env) (destination : Destination)
  (bundle : Bundle) (n : nat) : list Event :=
  (EvOpen n rpc_install
   :: drained n (install_frames env destination bundle)
   ++ [EvClose n])%list.

(** What an install records when nothing fails, [n] streams having been
    opened before: the URL branch and the local-path branch open and close
    a stream around the construction of their generator before they open
    the stream that carries the install. *)
Definition install_events (env : Env) (destination : Destination)
  (bundle : Bundle) (n : nat) : list Event :=
  match bundle with
  | Bundle_str s =>
      if truthy (urlparse_scheme env s) then
        EvOpen n rpc_install :: EvClose n
        :: install_stream env destination bundle (S n)
      else
        match resolve_strict env s with
        | None => []
        | Some _ =>
            if is_local (discovered env) then
              EvOpen n rpc_install :: EvClose n
              :: install_stream env destination bundle (S n)
            else install_stream env destination bundle n
        end
  | Bundle_io _ => install_stream env destination bundle n
  end.

(** A string source without URL scheme that does not resolve. *)
Definition source_missing (env : Env) (bundle : Bundle) : bool :=
  match bundle with
  | Bundle_str s =>
      negb (truthy (urlparse_scheme env s))
      && match resolve_strict env s with None => true | Some _ => false end
  | Bundle_io _ => false
  end.

(** ** Specifications of computations *)

(** The part of the world the client's decisions depend on: the companion it
    has been told about, the messages waiting and the number of streams
    opened so far. *)
Definition at_ (ci : option CompanionInfo) (ib : list Response) (n : nat)
  (w : World) : Prop :=
  companion_info w = ci /\ inbox w = ib /\ opened w = n.

(** A client the decorator has prepared, on a transport without faults. *)
Definition calm_at (ci : CompanionInfo) (ib : list Response) (n : nat)
  (w : World) : Prop :=
  at_ (Some ci) ib n w /\ faults w = [] /\ stub w <> None.

(** On any transport.  [emits P m full Q]: started in a world that satisfies
    [P], the computation [m] records a prefix of [full]; if it returns, it
    has recorded all of [full] and left a world that satisfies [Q]. *)
Definition emits {A} (P : World -> Prop) (m : M A) (full : list Event)
  (Q : A -> World -> Prop) : Prop :=
  forall w, P w ->
    is_prefix (events (m w)) full /\
    forall a, result (m w) = Return a ->
      events (m w) = full /\ Q a (world (m w)).

(** On a transport without faults.  [runs P m evs Q]: started in a world that
    satisfies [P], the computation [m] returns, having recorded exactly
    [evs], and leaves a world that satisfies [Q]. *)
Definition runs {A} (P : World -> Prop) (m : M A) (evs : list Event)
  (Q : A -> World -> Prop) : Prop :=
  forall w, P w ->
    exists a w',
      m w = {| result := Return a; world := w'; events := evs |} /\ Q a w'.

(** [records P m evs] only says what is recorded; it also covers
    computations that end by raising. *)
Definition records {A} (P : World -> Prop) (m : M A) (evs : list Event)
  : Prop :=
  forall w, P w -> events (m w) = evs.

(** A stream framed by [async with]: nothing at all when it could not be
    opened; otherwise the opening, what the body recorded, and the closing,
    on every exit path. *)
Definition framed {A} (n : nat) (rpc : Rpc) (full : list Event)
  (o : Outcome A) : Prop :=
  (events o = [] /\ returned (result o) = false) \/
  exists d, events o = (EvOpen n rpc :: d ++ [EvClose n])%list /\
            is_prefix d full /\
            (returned (result o) = true -> d = full).

(** The events of a stream framed by [async with], whatever the result. *)
Definition framed_events (n : nat) (rpc : Rpc) (full evs : list Event)
  : Prop :=
  evs = [] \/
  exists d, evs = (EvOpen n rpc :: d ++ [EvClose n])%list /\ is_prefix d full.

(** The shape of an install on any transport: possibly a stream opened and
    closed with nothing on it, then the stream that carries the destination
    and the frames chosen for the source. *)
Definition install_shape (env : Env) (destination : Destination)
  (bundle : Bundle) (n : nat) (evs : list Event) : Prop :=
  framed_events n rpc_install
    (drained n (install_frames env destination bundle)) evs
  \/ exists main,
       evs = ([EvOpen n rpc_install; EvClose n] ++ main)%list /\
       framed_events (S n) rpc_install
         (drained (S n) (install_frames env destination bundle)) main.

(** ** The life of a stream *)

(** What the client may do next: no stream is open; stream [s] is open and
    still takes frames; stream [s] is open and end-of-stream was signalled
    on it. *)
Inductive Session :=
| Closed
| Sending (s : nat)
| Receiving (s : nat).

(** One action moves the session on, or breaks the protocol: a stream is
    opened only while none is open; frames go to the open stream, before its
    end-of-stream; end-of-stream is signalled once; receives, and the
    unpacking of what was received, come after end-of-stream; the open
    stream is closed from either state. *)
Definition session_step (st : Session) (ev : Event) : option Session :=
  match st, ev with
  | Closed, EvOpen s _ => Some (Sending s)
  | Sending c, EvSend s _ => if Nat.eqb c s then Some (Sending c) else None
  | Sending c, EvEnd s => if Nat.eqb c s then Some (Receiving c) else None
  | Receiving c, EvRecv s => if Nat.eqb c s then Some (Receiving c) else None
  | Receiving c, EvUntar _ _ => Some (Receiving c)
  | Sending c, EvClose s => if Nat.eqb c s then Some Closed else None
  | Receiving c, EvClose s => if Nat.eqb c s then Some Closed else None
  | _, _ => None
  end.

Fixpoint session_run (st : Session) (evs : list Event) : option Session :=
  match evs with
  | [] => Some st
  | ev :: rest =>
      match session_step st ev with
      | Some st' => session_run st' rest
      | None => None
      end
  end.

(** A record that keeps to the protocol and leaves no stream open. *)
Definition session_ok (evs : list Event) : bool :=
  match session_run Closed evs with
  | Some Closed => true
  | _ => false
  end.

Definition is_close (ev : Event) : bool :=
  match ev with EvClose _ => true | _ => false end.

(** Stream [n] is open. *)
Definition alive (n : nat) (st : Session) : Prop :=
  st = Sending n \/ st = Receiving n.

(** ** Failing transports *)

(** A client the decorator has prepared, on a transport whose next fates are
    [fs]. *)
Definition tense (ci : CompanionInfo) (ib : list Response) (n : nat)
  (fs : list (option Exn)) (w : World) : Prop :=
  at_ (Some ci) ib n w /\ faults w = fs /\ stub w <> None.

(** [raises P m e evs]: started in a world that satisfies [P], the
    computation [m] raises [e], having recorded exactly [evs]. *)
Definition raises {A} (P : World -> Prop) (m : M A) (e : Exn)
  (evs : list Event) : Prop :=
  forall w, P w -> result (m w) = Raise e /\ events (m w) = evs.

(** The first failure the transport has in store, if any. *)
Fixpoint first_fault (fs : list (option Exn)) : option Exn :=
  match fs with
  | [] => None
  | Some e :: _ => Some e
  | None :: rest => first_fault rest
  end.

(** A client whose stub and companion have been set. *)
Definition ready (w : World) : Prop :=
  stub w <> None /\ companion_info w <> None.

(** [relays X m]: on a ready client, whatever [m] raises is the first
    failure of the transport, as the transport raised it, or one of [X];
    if [m] returns, the client is still ready and the transport has the same
    first failure in store. *)
Definition relays {A} (X : Exn -> Prop) (m : M A) : Prop :=
  forall w, ready w ->
    (forall a, result (m w) = Return a ->
       ready (world (m w)) /\
       first_fault (faults (world (m w))) = first_fault (faults w)) /\
    (forall e, result (m w) = Raise e ->
       first_fault (faults w) = Some e \/ X e).



(** The same machine with the companion declared local or remote. *)
Definition with_locality (local : bool) (env : Env) : Env :=
  {| urlparse_scheme := urlparse_scheme env;
     resolve_strict := resolve_strict env;
     discovered := {| host := host (discovered env);
                      port := port (discovered env);
                      is_local := local |};
     read_tree := read_tree env;
     subfolder := subfolder env;
     encode_header := encode_header env;
     tar_block_size := tar_block_size env;
     io_chunk_size := io_chunk_size env |}.

(** ** The HID shortcuts of [GrpcClient] *)

Section Shortcuts.

Variable env : Env.

(** The event builders of [idb.common.hid] are not among the sources and
    the spec does not describe them: they are parameters, and so are the
    types of durations and buttons.  [default_duration] is the default the
    absent [key_press_to_events] declares for its second argument, which
    [key_sequence] omits. *)
Variables float HIDButtonType : Type.
Variable iterator_to_async_iterator : list HIDEvent -> list HIDEvent.
Variable tap_to_events : Z -> Z -> option float -> list HIDEvent.
Variable button_press_to_events :
  HIDButtonType -> option float -> list HIDEvent.
Variable key_press_to_events : Z -> option float -> list HIDEvent.
Variable default_duration : option float.
Variable text_to_events : string -> list HIDEvent.
Variable swipe_to_events : Z * Z -> Z * Z -> option Z -> list HIDEvent.

Definition send_events_async (events : list HIDEvent) : M unit :=
  hid env (iterator_to_async_iterator events).

Definition send_events (events : list HIDEvent) : M unit :=
  log_and_handle_exceptions env (send_events_async events).

Definition tap_async (x y : Z) (duration : option float) : M unit :=
  send_events (tap_to_events x y duration).

Definition tap (x y : Z) (duration : option float) : M unit :=
  log_and_handle_exceptions env (tap_async x y duration).

Definition button_async (button_type : HIDButtonType)
  (duration : option float) : M unit :=
  send_events (button_press_to_events button_type duration).

Definition button (button_type : HIDButtonType) (duration : option float)
  : M unit :=
  log_and_handle_exceptions env (button_async button_type duration).

Definition key_async (keycode : Z) (duration : option float) : M unit :=
  send_events (key_press_to_events keycode duration).

Definition key (keycode : Z) (duration : option float) : M unit :=
  log_and_handle_exceptions env (key_async keycode duration).

Definition text_async (text : string) : M unit :=
  send_events (text_to_events text).

Definition text (text : string) : M unit :=
  log_and_handle_exceptions env (text_async text).

Definition swipe_async (p_start p_end : Z * Z) (delta : option Z) : M unit :=
  send_events (swipe_to_events p_start p_end delta).

Definition swipe (p_start p_end : Z * Z) (delta : option Z) : M unit :=
  log_and_handle_exceptions env (swipe_async p_start p_end delta).

(** [events = []; for key in key_sequence: events.extend(...)]. *)
Definition key_sequence_async (key_sequence : list Z) : M unit :=
  let events :=
    fold_left
      (fun events key =>
         (events ++ key_press_to_events key default_duration)%list)
      key_sequence [] in
  send_events events.

Definition key_sequence (key_sequence : list Z) : M unit :=
  log_and_handle_exceptions env (key_sequence_async key_sequence).

End Shortcuts.

(** ** [approve]: the permissions of the request *)

(** [ApproveRequest.PHOTOS], [ApproveRequest.CAMERA],
    [ApproveRequest.CONTACTS]. *)
Inductive Permission := PHOTOS | CAMERA | CONTACTS.

Definition APPROVE_MAP : list (string * Permission) :=
  [("photos", PHOTOS); ("camera", CAMERA); ("contacts", CONTACTS)].

(** [d[key]]: the value, or Python's [KeyError(key)]. *)
Inductive LookupError := KeyError (key : string).

Fixpoint getitem {V} (d : list (string * V)) (key : string)
  : LookupError + V :=
  match d with
  | [] => inl (KeyError key)
  | (k, v) :: rest => if (k =? key)%string then inr v else getitem rest key
  end.

(** [[APPROVE_MAP[permission] for permission in permissions]]; the set of
    permissions is given by the order in which it is iterated. *)
Fixpoint approve_permissions (permissions : list string)
  : LookupError + list Permission :=
  match permissions with
  | [] => inr []
  | permission :: rest =>
      match getitem APPROVE_MAP permission with
      | inl e => inl e
      | inr v =>
          match approve_permissions rest with
          | inl e => inl e
          | inr vs => inr (v :: vs)
          end
      end
  end.

Record ApproveRequest := {
  approve_bundle_id : string;
  approve_permission_values : list Permission
}.

(** The request [approve] builds before it calls the stub; a [KeyError]
    raised here leaves the stub uncalled. *)
Definition approve_request (bundle_id : string) (permissions : list string)
  : LookupError + ApproveRequest :=
  match approve_permissions permissions with
  | inl e => inl e
  | inr vs =>
      inr {| approve_bundle_id := bundle_id;
             approve_permission_values := vs |}
  end.

(** ** [provide_client]: the channel to the daemon *)

Module Daemon.

(** A [Channel] object; [serial] tells one object from another. *)
Record Channel := {
  serial : nat;
  channel_host : string;
  channel_port : N
}.

(** [CompanionServiceStub(channel=...)]. *)
Record Stub := { stub_channel : Channel }.

Record CompanionClient := {
  client_stub : option Stub;
  client_is_local : bool;
  client_udid : option string
}.

(** The attributes of [GrpcClient] that [provide_client] reads and writes,
    and the number of channels constructed so far. *)
Record Client := {
  self_port : N;
  self_host : string;
  self_target_udid : option string;
  self_force_kill_daemon : bool;
  daemon_channel : option Channel;
  daemon_stub : option Stub;
  channels : nat
}.

(** [GrpcClient.__init__], as far as these attributes go. *)
Definition init (port : N) (host : string) (target_udid : option string)
  (force_kill_daemon : bool) : Client :=
  {| self_port := port; self_host := host; self_target_udid := target_udid;
     self_force_kill_daemon := force_kill_daemon;
     daemon_channel := None; daemon_stub := None; channels := 0 |}.

(** [spawned] is what [daemon_spawner.start_daemon_if_needed] does this
    time: [None] if it returns, [Some e] if it raises [e]. *)
Definition provide_client (spawned : option Exn) (self : Client)
  : Result CompanionClient * Client :=
  match spawned with
  | Some e => (Raise e, self)
  | None =>
      let self' :=
        match daemon_channel self, daemon_stub self with
        | Some _, Some _ => self
        | _, _ =>
            let c := {| serial := channels self;
                        channel_host := self_host self;
                        channel_port := self_port self |} in
            {| self_port := self_port self; self_host := self_host self;
               self_target_udid := self_target_udid self;
               self_force_kill_daemon := self_force_kill_daemon self;
               daemon_channel := Some c;
               daemon_stub := Some {| stub_channel := c |};
               channels := S (channels self) |}
        end in
      (Return {| client_stub := daemon_stub self';
                 client_is_local := true;
                 client_udid := self_target_udid self' |},
       self')
  end.

End Daemon.

(** ** A small machine to run the client on *)

Definition example_scheme (s : string) : string :=
  if String.prefix "https://" s then "https" else "".

Definition example_files (p : string) : list (string * N * bytes) :=
  if (p =? "/tmp/a.txt")%string then [("a.txt", 420%N, [x61; x62; x63])]
  else if (p =? "/tmp/b.txt")%string then [("b.txt", 420%N, [x64])]
  else [].

Definition example_env (local : bool) : Env :=
  {| urlparse_scheme := example_scheme;
     resolve_strict := fun s =>
       if (s =? "/tmp/missing.app")%string then None else Some s;
     discovered := {| host := "localhost"; port := 10882%N;
                      is_local := local |};
     read_tree := example_files;
     subfolder := fun i => if Nat.eqb i 0 then "0" else "1";
     encode_header := fun e => list_byte_of_string (relativePath e);
     tar_block_size := 4;
     io_chunk_size := 2 |}.

Definition example_response : Response :=
  {| resp_name := "App"; resp_uuid := "0001"; resp_data := [x01; x02] |}.

(** A client that has not made any call yet, on a transport without faults,
    with [waiting] to be delivered by the companion. *)
Definition fresh (waiting : list Response) : World :=
  {| companion_info := None; channel := None; stub := None;
     faults := []; inbox := waiting; opened := 0 |}.

(** * Facts *)

(** ** Lists and chunks *)

Lemma is_prefix_refl {A} (l : list A) : is_prefix l l.
Proof. exists []. now rewrite app_nil_r. Qed.

Lemma is_prefix_nil {A} (l : list A) : is_prefix [] l.
Proof. now exists l. Qed.

Lemma is_prefix_app {A} (l d full : list A) :
  is_prefix d full -> is_prefix (l ++ d) (l ++ full).
Proof.
  intros [rest ->]. exists rest. now rewrite app_assoc.
Qed.

Lemma is_prefix_app_r {A} (d full more : list A) :
  is_prefix d full -> is_prefix d (full ++ more).
Proof.
  intros [rest ->]. exists (rest ++ more)%list. now rewrite app_assoc.
Qed.

Lemma is_prefix_filter {A} (p : A -> bool) (d full : list A) :
  is_prefix d full -> is_prefix (filter p d) (filter p full).
Proof.
  intros [rest ->]. exists (filter p rest). apply filter_app.
Qed.

Lemma is_prefix_Forall {A} (P : A -> Prop) (d full : list A) :
  is_prefix d full -> Forall P full -> Forall P d.
Proof.
  intros [rest ->] H. now apply Forall_app in H.
Qed.

Lemma is_prefix_length {A} (d full : list A) :
  is_prefix d full -> List.length d <= List.length full.
Proof.
  intros [rest ->]. rewrite length_app. lia.
Qed.

Lemma chunks_fuel_concat (n : nat) :
  forall fuel data, List.length data <= fuel ->
    List.concat (chunks_fuel fuel (S n) data) = data.
Proof.
  induction fuel as [|fuel IH]; intros data Hlen.
  - destruct data; [reflexivity | simpl in Hlen; lia].
  - destruct data as [|b data]; [reflexivity|].
    cbn [chunks_fuel List.concat].
    rewrite IH.
    + apply firstn_skipn.
    + rewrite length_skipn. simpl in *. lia.
Qed.

(** Chunking loses nothing: the fuel is enough and the blocks, put end to
    end, are the data. *)
Lemma chunked_concat (n : nat) (data : bytes) :
  0 < n -> List.concat (chunked n data) = data.
Proof.
  destruct n as [|n]; [lia|]. intros _.
  now apply chunks_fuel_concat.
Qed.

Lemma chunked_nil (n : nat) : chunked n [] = [].
Proof. now destruct n. Qed.

(** Every block holds at most [n] bytes and at least one. *)
Lemma chunks_fuel_bounded (n : nat) :
  forall fuel data,
    Forall (fun c => 0 < List.length c <= S n) (chunks_fuel fuel (S n) data).
Proof.
  induction fuel as [|fuel IH]; intros data; [constructor|].
  destruct data as [|b data]; [constructor|].
  cbn [chunks_fuel]. constructor; [|apply IH].
  split.
  - simpl. lia.
  - apply firstn_le_length.
Qed.

Lemma chunked_bounded (n : nat) (data : bytes) :
  Forall (fun c => List.length c <= n) (chunked n data).
Proof.
  destruct n as [|n]; [constructor|].
  eapply Forall_impl; [|apply chunks_fuel_bounded].
  simpl. intros c Hc. lia.
Qed.

(** An archive of no path has no entry and no byte, hence no block. *)
Lemma generate_tar_nil (env : Env) (place_in_subfolders : bool) :
  generate_tar env [] place_in_subfolders = [].
Proof.
  unfold generate_tar, archive_bytes. simpl. apply chunked_nil.
Qed.

(** [create_tar] holds what [generate_tar] streams. *)
Lemma create_tar_generate_tar (env : Env) (paths : list string) :
  0 < tar_block_size env ->
  List.concat (generate_tar env paths false) = create_tar env paths.
Proof.
  intros H. unfold generate_tar, create_tar. now apply chunked_concat.
Qed.

(** ** Running on a transport without faults *)

Section Calm.

Variable w : World.
Hypothesis no_fault : faults w = [].

Lemma fate_calm :
  fate w = {| result := Return tt; world := w; events := [] |}.
Proof. unfold fate. now rewrite no_fault. Qed.

Lemma send_message_calm (stream : nat) (request : Request) :
  send_message stream request w =
  {| result := Return tt; world := w; events := [EvSend stream request] |}.
Proof. unfold send_message, bind. now rewrite fate_calm. Qed.

Lemma stream_end_calm (stream : nat) :
  stream_end stream w =
  {| result := Return tt; world := w; events := [EvEnd stream] |}.
Proof. unfold stream_end, bind. now rewrite fate_calm. Qed.

Lemma recv_message_calm (stream : nat) :
  recv_message stream w =
  {| result := Return (hd_error (inbox w));
     world := set_inbox (tl (inbox w)) w;
     events := [EvRecv stream] |}.
Proof.
  unfold recv_message, bind. now rewrite fate_calm.
Qed.

Lemma for_each_send_calm {A} (stream : nat) (f : A -> Request) (l : list A) :
  for_each (fun x => send_message stream (f x)) l w =
  {| result := Return tt; world := w;
     events := map (fun x => EvSend stream (f x)) l |}.
Proof.
  induction l as [|x l IH]; [reflexivity|].
  cbn [for_each]. unfold bind. rewrite send_message_calm. cbn.
  rewrite IH. reflexivity.
Qed.

End Calm.

Lemma drain_to_stream_calm (w : World) (stream : nat) (frames : list Request) :
  faults w = [] ->
  drain_to_stream stream frames w =
  {| result := Return (hd_error (inbox w));
     world := set_inbox (tl (inbox w)) w;
     events :=
       (map (EvSend stream) frames ++ [EvEnd stream; EvRecv stream])%list |}.
Proof.
  intros H. unfold drain_to_stream, bind.
  rewrite (@for_each_send_calm w H _ stream (fun r => r)). cbn.
  rewrite (stream_end_calm w H). cbn.
  rewrite (recv_message_calm w H). cbn.
  reflexivity.
Qed.

(** ** Running on any transport: the rules of [emits] *)

Lemma emits_raise {A} (P : World -> Prop) (e : Exn) (full : list Event)
  (Q : A -> World -> Prop) :
  emits P (raise e) full Q.
Proof.
  intros w _. split; [apply is_prefix_nil|]. intros a H. discriminate H.
Qed.

Lemma emits_bind {A B} (P : World -> Prop) (m : M A) (k : A -> M B)
  (f1 f2 : list Event) (Q : A -> World -> Prop) (R : B -> World -> Prop) :
  emits P m f1 Q ->
  (forall a, emits (Q a) (k a) f2 R) ->
  emits P (bind m k) (f1 ++ f2) R.
Proof.
  intros Hm Hk w HP. destruct (Hm w HP) as [Hpre Hret].
  unfold bind. destruct (m w) as [[a|e] w1 e1]; cbn in *.
  - destruct (Hret a eq_refl) as [-> HQ].
    destruct (Hk a _ HQ) as [Hpre' Hret'].
    destruct (k a w1) as [r w2 e2]; cbn in *.
    split; [now apply is_prefix_app|].
    intros b Hb. destruct (Hret' b Hb) as [-> HR]. auto.
  - split; [now apply is_prefix_app_r|]. intros a H. discriminate H.
Qed.

Lemma emits_weaken {A} (P P' : World -> Prop) (m : M A) (full : list Event)
  (Q Q' : A -> World -> Prop) :
  emits P m full Q ->
  (forall w, P' w -> P w) ->
  (forall a w, Q a w -> Q' a w) ->
  emits P' m full Q'.
Proof.
  intros Hm HP HQ w Hw. destruct (Hm w (HP w Hw)) as [Hpre Hret].
  split; [exact Hpre|]. intros a Ha. destruct (Hret a Ha). auto.
Qed.

(** A fact about the value just computed moves from the precondition into
    the context. *)
Lemma emits_given {A} (fact : Prop) (P : World -> Prop) (m : M A)
  (full : list Event) (Q : A -> World -> Prop) :
  (fact -> emits P m full Q) ->
  emits (fun w => fact /\ P w) m full Q.
Proof. intros H w [Hf HP]. now apply H. Qed.

Section Primitives.

Variables (ci : option CompanionInfo) (ib : list Response) (n : nat).

Lemma emits_fate : emits (at_ ci ib n) fate [] (fun _ => at_ ci ib n).
Proof.
  intros w HP. unfold fate.
  destruct (faults w) as [|[e|] rest]; cbn;
    (split; [apply is_prefix_nil|]); intros a H;
    try discriminate H; auto.
Qed.

Lemma emits_emit (ev : Event) :
  emits (at_ ci ib n) (emit ev) [ev] (fun _ => at_ ci ib n).
Proof.
  intros w HP. cbn. split; [apply is_prefix_refl|]. auto.
Qed.

Lemma emits_send_message (stream : nat) (request : Request) :
  emits (at_ ci ib n) (send_message stream request) [EvSend stream request]
        (fun _ => at_ ci ib n).
Proof.
  change [EvSend stream request] with ([] ++ [EvSend stream request])%list.
  eapply emits_bind; [apply emits_fate | intro; apply emits_emit].
Qed.

Lemma emits_stream_end (stream : nat) :
  emits (at_ ci ib n) (stream_end stream) [EvEnd stream]
        (fun _ => at_ ci ib n).
Proof.
  change [EvEnd stream] with ([] ++ [EvEnd stream])%list.
  eapply emits_bind; [apply emits_fate | intro; apply emits_emit].
Qed.

Lemma emits_pop_inbox :
  emits (at_ ci ib n) pop_inbox []
        (fun r w => r = hd_error ib /\ at_ ci (tl ib) n w).
Proof.
  intros w (Hc & Hi & Ho). cbn. split; [apply is_prefix_nil|].
  intros a H. injection H as <-. rewrite Hi. repeat split; assumption.
Qed.

Lemma emits_recv_message (stream : nat) :
  emits (at_ ci ib n) (recv_message stream) [EvRecv stream]
        (fun r w => r = hd_error ib /\ at_ ci (tl ib) n w).
Proof.
  change [EvRecv stream] with ([] ++ [EvRecv stream] ++ [])%list.
  eapply emits_bind; [apply emits_fate | intro; cbv beta].
  eapply emits_bind; [apply emits_emit | intro; cbv beta].
  apply emits_pop_inbox.
Qed.

Lemma emits_sends {A} (stream : nat) (f : A -> Request) (l : list A) :
  emits (at_ ci ib n) (for_each (fun x => send_message stream (f x)) l)
        (map (fun x => EvSend stream (f x)) l) (fun _ => at_ ci ib n).
Proof.
  induction l as [|x l IH]; cbn [for_each map].
  - intros w HP. cbn. split; [apply is_prefix_nil | auto].
  - change (EvSend stream (f x) :: map (fun x => EvSend stream (f x)) l)
      with ([EvSend stream (f x)] ++ map (fun x => EvSend stream (f x)) l)%list.
    eapply emits_bind; [apply emits_send_message | intro; exact IH].
Qed.

(** The drain of section 4.2: frames in order, then end-of-stream, then the
    one receive. *)
Lemma emits_drain_to_stream (stream : nat) (frames : list Request) :
  emits (at_ ci ib n) (drain_to_stream stream frames)
        (map (EvSend stream) frames ++ [EvEnd stream; EvRecv stream])
        (fun r w => r = hd_error ib /\ at_ ci (tl ib) n w).
Proof.
  unfold drain_to_stream.
  eapply emits_bind; [apply (emits_sends stream (fun r => r)) | intro; cbv beta].
  change [EvEnd stream; EvRecv stream]
    with ([EvEnd stream] ++ [EvRecv stream])%list.
  eapply emits_bind; [apply emits_stream_end | intro; cbv beta].
  apply emits_recv_message.
Qed.

End Primitives.

Lemma emits_self_is_local (c : CompanionInfo) (ib : list Response) (n : nat) :
  emits (at_ (Some c) ib n) self_is_local []
        (fun b w => b = is_local c /\ at_ (Some c) ib n w).
Proof.
  intros w HP. unfold self_is_local. destruct HP as (Hc & Hi & Ho).
  rewrite Hc. cbn. split; [apply is_prefix_nil|].
  intros a H. injection H as <-. repeat split; assumption.
Qed.

(** [open] either raises before anything is recorded, or hands out the next
    stream and touches nothing the client looks at. *)
Lemma open_cases (rpc : Rpc) (w : World) :
  (exists e, result (open rpc w) = Raise e /\ events (open rpc w) = []) \/
  (result (open rpc w) = Return (opened w) /\
   events (open rpc w) = [EvOpen (opened w) rpc] /\
   at_ (companion_info w) (inbox w) (S (opened w)) (world (open rpc w))).
Proof.
  unfold open, self_stub, fate, bind, at_.
  destruct (stub w); cbn.
  - destruct (faults w) as [|[e|] rest]; cbn; eauto 6.
  - eauto.
Qed.

Lemma async_with_framed {A} (ci : option CompanionInfo) (ib : list Response)
  (n : nat) (rpc : Rpc) (body : nat -> M A) (full : list Event)
  (Q : A -> World -> Prop) (w : World) :
  emits (at_ ci ib (S n)) (body n) full Q ->
  at_ ci ib n w ->
  framed n rpc full (async_with rpc body w) /\
  forall a, result (async_with rpc body w) = Return a ->
            Q a (world (async_with rpc body w)).
Proof.
  intros Hbody (Hc & Hi & Ho).
  unfold async_with, bind.
  destruct (open_cases rpc w) as [(e & Hr & He) | (Hr & He & Hw)];
    destruct (open rpc w) as [r w1 e1]; cbn in Hr, He; subst r e1.
  - cbn. split; [left; auto|]. intros a H. discriminate H.
  - cbn in Hw. rewrite Hc, Hi, Ho in *.
    destruct (Hbody _ Hw) as [Hpre Hret].
    unfold finally. destruct (body n w1) as [rb wb eb]; cbn in *.
    split.
    + right. exists eb. repeat split; [assumption|].
      destruct rb as [a|e]; [|discriminate].
      intros _. now destruct (Hret a eq_refl).
    + intros a Ha. now destruct (Hret a Ha).
Qed.

Lemma emits_generate_bytes (ci : option CompanionInfo) (ib : list Response)
  (n stream : nat) :
  emits (at_ ci ib n) (generate_bytes stream) [EvRecv stream]
        (fun c w => c = option_map resp_data (hd_error ib) /\
                    at_ ci (tl ib) n w).
Proof.
  unfold generate_bytes.
  change [EvRecv stream] with ([EvRecv stream] ++ [])%list.
  eapply emits_bind; [apply emits_recv_message | intro item; cbv beta].
  apply emits_given. intros ->.
  intros w HP. cbn. split; [apply is_prefix_nil|].
  intros a H. injection H as <-. auto.
Qed.

(** The receiving loop of remote pull reads everything that is waiting, in
    order, provided it is given at least one step per waiting message. *)
Lemma emits_drain_untar_steps (ci : option CompanionInfo) (n stream : nat)
  (output_path : string) :
  forall ib k, List.length ib <= k ->
    emits (at_ ci ib n)
          (drain_untar_steps k (generate_bytes stream) output_path)
          (untar_events stream output_path ib)
          (fun _ => at_ ci [] n).
Proof.
  induction ib as [|r ib IH]; intros k Hk.
  - destruct k; cbn [drain_untar_steps];
      change (untar_events stream output_path [])
        with ([EvRecv stream] ++ [])%list;
      (eapply emits_bind; [apply emits_generate_bytes | intro c; cbv beta]);
      apply emits_given; intros ->; cbn;
      intros w HP; cbn; (split; [apply is_prefix_nil | auto]).
  - destruct k as [|k]; [simpl in Hk; lia|].
    cbn [drain_untar_steps].
    change (untar_events stream output_path (r :: ib))
      with ([EvRecv stream]
            ++ [EvUntar output_path (resp_data r)]
            ++ untar_events stream output_path ib)%list.
    eapply emits_bind; [apply emits_generate_bytes | intro c; cbv beta].
    apply emits_given. intros ->. cbn [hd_error option_map tl].
    eapply emits_bind; [apply emits_emit | intro; cbv beta].
    apply IH. simpl in Hk. lia.
Qed.

Lemma emits_drain_untar (ci : option CompanionInfo) (ib : list Response)
  (n stream : nat) (output_path : string) :
  emits (at_ ci ib n) (drain_untar (generate_bytes stream) output_path)
        (untar_events stream output_path ib) (fun _ => at_ ci [] n).
Proof.
  intros w HP. unfold drain_untar.
  assert (Hi : inbox w = ib) by apply HP. rewrite Hi.
  apply emits_drain_untar_steps with (k := List.length ib); [lia | exact HP].
Qed.

(** The decorator adds nothing to what the coroutine does: it stores the
    companion, the channel and the stub on the client, and whatever the
    coroutine then returns or raises is what the caller gets. *)
Lemma decorated_run {A} (env : Env) (func : M A) (w : World) :
  result (log_and_handle_exceptions env func w) = result (func (prepared env w))
  /\ events (log_and_handle_exceptions env func w)
     = events (func (prepared env w))
  /\ world (log_and_handle_exceptions env func w)
     = world (func (prepared env w)).
Proof.
  unfold log_and_handle_exceptions, log_call, func_wrapper, try_except, bind.
  cbn. fold (prepared env w). destruct (func (prepared env w)). cbn. auto.
Qed.

Lemma prepared_at (env : Env) (w : World) :
  at_ (Some (discovered env)) (inbox w) (opened w) (prepared env w).
Proof. repeat split. Qed.

(** ** Reading records of events *)

Lemma sent_app (l1 l2 : list Event) : sent (l1 ++ l2) = (sent l1 ++ sent l2)%list.
Proof.
  induction l1 as [|ev l1 IH]; [reflexivity|].
  destruct ev; cbn; now rewrite ?IH.
Qed.

Lemma sent_sends (s : nat) (frames : list Request) :
  sent (map (EvSend s) frames) = frames.
Proof. induction frames as [|r l IH]; cbn; now rewrite ?IH. Qed.

Lemma sent_drained (s : nat) (frames : list Request) :
  sent (drained s frames) = frames.
Proof.
  unfold drained. rewrite sent_app, sent_sends. cbn. apply app_nil_r.
Qed.

Lemma sent_untar_events (s : nat) (p : string) (waiting : list Response) :
  sent (untar_events s p waiting) = [].
Proof.
  unfold untar_events. rewrite sent_app. cbn. rewrite app_nil_r.
  induction waiting as [|r l IH]; [reflexivity | exact IH].
Qed.

Lemma sent_prefix (d full : list Event) :
  is_prefix d full -> is_prefix (sent d) (sent full).
Proof. intros [rest ->]. exists (sent rest). apply sent_app. Qed.

Lemma recv_after_end_prefix (d rest : list Event) :
  forall ended, recv_after_end_from ended (d ++ rest) = true ->
                recv_after_end_from ended d = true.
Proof.
  induction d as [|ev d IH]; intros ended H; [reflexivity|].
  destruct ev; cbn in *; auto.
  apply andb_true_iff in H as [H1 H2]. rewrite H1. cbn. now apply IH.
Qed.

Lemma recv_after_end_app (l1 l2 : list Event) :
  forall ended,
    recv_after_end_from ended l1 = true ->
    (forall ended', recv_after_end_from ended' l2 = true) ->
    recv_after_end_from ended (l1 ++ l2) = true.
Proof.
  induction l1 as [|ev l1 IH]; intros ended H1 H2; [apply H2|].
  destruct ev; cbn in *; auto.
  apply andb_true_iff in H1 as [Ha Hb]. rewrite Ha. cbn. now apply IH.
Qed.

Lemma recv_after_end_sends (s : nat) (frames : list Request)
  (rest : list Event) (ended : list nat) :
  recv_after_end_from ended (map (EvSend s) frames ++ rest)
  = recv_after_end_from ended rest.
Proof. induction frames as [|r l IH]; cbn; auto. Qed.

Lemma recv_after_end_drained (s : nat) (frames : list Request)
  (ended : list nat) :
  recv_after_end_from ended (drained s frames) = true.
Proof.
  unfold drained. rewrite recv_after_end_sends. cbn.
  now rewrite Nat.eqb_refl.
Qed.

Lemma recv_after_end_untar_events (s : nat) (p : string)
  (waiting : list Response) (ended : list nat) :
  recv_after_end_from (s :: ended) (untar_events s p waiting) = true.
Proof.
  unfold untar_events.
  induction waiting as [|r l IH]; cbn; rewrite Nat.eqb_refl; cbn; auto.
Qed.

(** A framed stream inherits what holds of the complete body. *)
Lemma framed_recv_after_end {A} (n : nat) (rpc : Rpc) (full : list Event)
  (o : Outcome A) :
  framed n rpc full o ->
  (forall ended, recv_after_end_from ended full = true) ->
  forall ended, recv_after_end_from ended (events o) = true.
Proof.
  intros [[-> _] | (d & -> & [rest ->] & _)] Hfull ended; [reflexivity|].
  cbn. apply recv_after_end_app.
  - apply recv_after_end_prefix with rest. apply Hfull.
  - reflexivity.
Qed.

Lemma framed_sent {A} (n : nat) (rpc : Rpc) (full : list Event)
  (o : Outcome A) :
  framed n rpc full o -> is_prefix (sent (events o)) (sent full).
Proof.
  intros [[-> _] | (d & -> & Hd & _)]; [apply is_prefix_nil|].
  cbn. rewrite sent_app. cbn. rewrite app_nil_r. now apply sent_prefix.
Qed.

(** ** The shape of each operation on any transport *)

Lemma emits_as {A} (P : World -> Prop) (m : M A) (full full' : list Event)
  (Q : A -> World -> Prop) :
  emits P m full Q -> full = full' -> emits P m full' (fun _ _ => True).
Proof.
  intros H <-. eapply emits_weaken; [exact H | auto | auto].
Qed.

Lemma emits_ret_any {A} (P : World -> Prop) (a : A) :
  emits P (ret a) [] (fun _ _ => True).
Proof.
  intros w _. cbn. split; [apply is_prefix_nil | auto].
Qed.

Lemma framed_decorated {A} (env : Env) (func : M A) (w : World) (n : nat)
  (rpc : Rpc) (full : list Event) :
  framed n rpc full (func (prepared env w)) ->
  framed n rpc full (log_and_handle_exceptions env func w).
Proof.
  unfold framed. destruct (decorated_run env func w) as (-> & -> & _). auto.
Qed.

Ltac emits_step :=
  first
    [ eapply emits_bind; [apply emits_send_message | intro; cbv beta]
    | eapply emits_bind; [apply emits_stream_end | intro; cbv beta]
    | eapply emits_bind; [apply emits_recv_message | intro; cbv beta]
    | eapply emits_bind; [apply emits_drain_to_stream | intro; cbv beta]
    | eapply emits_bind; [apply emits_sends | intro; cbv beta]
    | eapply emits_bind;
      [apply emits_self_is_local
      | intro; cbv beta; apply emits_given; intros ->;
        try match goal with
            | E : is_local (discovered _) = _ |- _ => rewrite E
            end]
    | match goal with
      | |- emits (fun w => _ = _ /\ _) _ _ _ => apply emits_given; intro
      end
    | apply emits_ret_any ].

Lemma push_framed (env : Env) (src_paths : list string)
  (bundle_id dest_path : string) (w : World) :
  framed (opened w) rpc_push
         (drained (opened w) (push_frames env src_paths bundle_id dest_path))
         (push env src_paths bundle_id dest_path w).
Proof.
  apply framed_decorated.
  eapply async_with_framed; [|apply prepared_at].
  unfold drained, push_frames.
  destruct (is_local (discovered env)) eqn:E;
    (eapply emits_as;
     [ repeat emits_step
     | unfold stream_map; cbn; rewrite ?map_map, ?app_nil_r; reflexivity ]).
Qed.

Lemma add_media_framed (env : Env) (file_paths : list string) (w : World) :
  framed (opened w) rpc_add_media
         (drained (opened w) (add_media_frames env file_paths))
         (add_media env file_paths w).
Proof.
  apply framed_decorated.
  eapply async_with_framed; [|apply prepared_at].
  unfold drained, add_media_frames.
  destruct (is_local (discovered env)) eqn:E;
    (eapply emits_as;
     [ repeat emits_step
     | unfold stream_map; cbn; rewrite ?map_map, ?app_nil_r; reflexivity ]).
Qed.

(** hid drains its frames and then receives once more. *)
Lemma hid_framed (env : Env) (event_iterator : list HIDEvent) (w : World) :
  framed (opened w) rpc_hid
         (drained (opened w) (map event_to_grpc event_iterator)
          ++ [EvRecv (opened w)])
         (hid env event_iterator w).
Proof.
  apply framed_decorated.
  eapply async_with_framed; [|apply prepared_at].
  eapply emits_as; [repeat emits_step | reflexivity].
Qed.

Lemma framed_then_ret {A B} (n : nat) (rpc : Rpc) (full : list Event)
  (m : M A) (b : B) (w : World) :
  framed n rpc full (m w) -> framed n rpc full ((m ;; ret b) w).
Proof.
  unfold framed, bind.
  destruct (m w) as [[a|e] w1 e1]; cbn; rewrite ?app_nil_r; auto.
Qed.

Lemma pull_framed (env : Env) (bundle_id src_path dest_path : string)
  (w : World) :
  framed (opened w) rpc_pull
         (pull_events env (opened w) bundle_id src_path dest_path (inbox w))
         (pull env bundle_id src_path dest_path w).
Proof.
  apply framed_decorated. apply framed_then_ret.
  eapply async_with_framed; [|apply prepared_at].
  unfold pull_events, pull_request.
  destruct (is_local (discovered env)) eqn:E.
  - eapply emits_as; [repeat emits_step | reflexivity].
  - eapply emits_as.
    + repeat emits_step. apply emits_drain_untar.
    + reflexivity.
Qed.

(** The stream that carries an install: the destination, the frames of the
    generator, end-of-stream, one receive. *)
Lemma install_stream_framed (destination : Destination)
  (generator : list Request) (ci : option CompanionInfo)
  (ib : list Response) (n : nat) (w : World) :
  at_ ci ib n w ->
  framed n rpc_install
    (drained n (InstallRequest_destination destination :: generator))
    (async_with rpc_install (fun stream =>
       send_message stream (InstallRequest_destination destination) ;;
       response <- drain_to_stream stream generator ;;
       match response with
       | Some r => ret {| name := resp_name r; uuid := resp_uuid r |}
       | None => raise (AttributeError "name")
       end) w).
Proof.
  intros Hw. eapply async_with_framed; [|exact Hw].
  eapply emits_as.
  - do 2 emits_step. apply emits_given. intros _.
    match goal with |- emits _ (match ?r with _ => _ end) _ _ =>
      destruct r end; [apply emits_ret_any | apply emits_raise].
  - unfold drained. cbn. now rewrite app_nil_r.
Qed.

(** The stream the URL and local-path branches open around the construction
    of their generator: it is closed again with nothing sent on it. *)
Lemma install_reference_stream (generator : list Request)
  (ci : option CompanionInfo) (ib : list Response) (n : nat) (w : World) :
  at_ ci ib n w ->
  (exists e,
     result (async_with rpc_install (fun _ => ret generator) w) = Raise e /\
     events (async_with rpc_install (fun _ => ret generator) w) = []) \/
  (result (async_with rpc_install (fun _ => ret generator) w)
   = Return generator /\
   events (async_with rpc_install (fun _ => ret generator) w)
   = [EvOpen n rpc_install; EvClose n] /\
   at_ ci ib (S n) (world (async_with rpc_install (fun _ => ret generator) w))).
Proof.
  intros (Hc & Hi & Ho). unfold async_with, bind.
  destruct (open_cases rpc_install w) as [(e & Hr & He) | (Hr & He & Hw)];
    destruct (open rpc_install w) as [r w1 e1]; cbn in Hr, He; subst r e1; cbn.
  - left. exists e. auto.
  - right. cbn in Hw. rewrite Hc, Hi, Ho in *. auto.
Qed.

Lemma framed_framed_events {A} (n : nat) (rpc : Rpc) (full : list Event)
  (o : Outcome A) :
  framed n rpc full o -> framed_events n rpc full (events o).
Proof.
  intros [[H _] | (d & H & Hd & _)]; [now left | right; eauto].
Qed.

Lemma events_bind {A B} (m : M A) (k : A -> M B) (w : World) :
  events (bind m k w) =
  match result (m w) with
  | Return a => (events (m w) ++ events (k a (world (m w))))%list
  | Raise _ => events (m w)
  end.
Proof. unfold bind. destruct (m w) as [[a|e] w1 e1]; cbn; [|reflexivity].
  now destruct (k a w1). Qed.

Lemma bind_self_is_local {A} (env : Env) (k : bool -> M A) (w : World) :
  result (bind self_is_local k (prepared env w))
  = result (k (is_local (discovered env)) (prepared env w))
  /\ events (bind self_is_local k (prepared env w))
     = events (k (is_local (discovered env)) (prepared env w))
  /\ world (bind self_is_local k (prepared env w))
     = world (k (is_local (discovered env)) (prepared env w)).
Proof.
  unfold bind. cbn.
  destruct (k (is_local (discovered env)) (prepared env w)). cbn. auto.
Qed.

Lemma install_to_shape (env : Env) (destination : Destination)
  (bundle : Bundle) (w : World) :
  install_shape env destination bundle (opened w)
    (events (install_to env destination bundle w)).
Proof.
  unfold install_to.
  destruct (decorated_run env (_install_to_destination env bundle destination) w)
    as (_ & -> & _).
  pose proof (prepared_at env w) as Hw.
  unfold install_shape, _install_to_destination, install_frames,
    strategy_frames.
  rewrite events_bind.
  destruct bundle as [s|io].
  - destruct (truthy (urlparse_scheme env s)).
    + destruct (install_reference_stream
                  (generate_requests [InstallRequest_payload (Payload_url s)])
                  Hw) as [(e & -> & ->) | (-> & -> & Hw')].
      * left. now left.
      * right. eexists. split; [reflexivity|].
        apply framed_framed_events. eapply install_stream_framed; eassumption.
    + destruct (resolve_strict env s) as [p|].
      * destruct (bind_self_is_local env
            (fun local : bool =>
               if local
               then async_with rpc_install (fun _ : nat =>
                      ret (generate_requests
                             [InstallRequest_payload (Payload_file_path p)]))
               else ret (generate_binary_chunks env p destination)) w)
          as (-> & -> & ->).
        destruct (is_local (discovered env)).
        -- destruct (install_reference_stream
                  (generate_requests
                     [InstallRequest_payload (Payload_file_path p)])
                  Hw) as [(e & -> & ->) | (-> & -> & Hw')].
           ++ left. now left.
           ++ right. eexists. split; [reflexivity|].
              apply framed_framed_events. eapply install_stream_framed; eassumption.
        -- cbn [ret result events world app]. left.
           apply framed_framed_events. eapply install_stream_framed; eassumption.
      * cbn. left. now left.
  - cbn [ret result events world app]. left. apply framed_framed_events.
    eapply install_stream_framed; eassumption.
Qed.

Lemma framed_events_sent (n : nat) (rpc : Rpc) (frames : list Request)
  (evs : list Event) :
  framed_events n rpc (drained n frames) evs -> is_prefix (sent evs) frames.
Proof.
  intros [-> | (d & -> & Hd)]; [apply is_prefix_nil|].
  cbn. rewrite sent_app. cbn. rewrite app_nil_r.
  rewrite <- (sent_drained n frames). now apply sent_prefix.
Qed.

Lemma framed_events_recv_after_end (n : nat) (rpc : Rpc)
  (full evs : list Event) :
  framed_events n rpc full evs ->
  (forall ended, recv_after_end_from ended full = true) ->
  forall ended, recv_after_end_from ended evs = true.
Proof.
  intros [-> | (d & -> & [rest ->])] Hfull ended; [reflexivity|].
  cbn. apply recv_after_end_app.
  - apply recv_after_end_prefix with rest. apply Hfull.
  - reflexivity.
Qed.

Lemma install_sent_prefix (env : Env) (destination : Destination)
  (bundle : Bundle) (w : World) :
  is_prefix (sent (events (install_to env destination bundle w)))
            (install_frames env destination bundle).
Proof.
  destruct (install_to_shape env destination bundle w)
    as [H | (main & -> & H)].
  - now apply framed_events_sent in H.
  - apply framed_events_sent in H. now rewrite sent_app.
Qed.

Lemma install_recv_after_end (env : Env) (destination : Destination)
  (bundle : Bundle) (w : World) :
  recv_after_end (events (install_to env destination bundle w)) = true.
Proof.
  unfold recv_after_end.
  destruct (install_to_shape env destination bundle w)
    as [H | (main & -> & H)].
  - eapply framed_events_recv_after_end; [exact H|].
    apply recv_after_end_drained.
  - cbn. eapply framed_events_recv_after_end; [exact H|].
    apply recv_after_end_drained.
Qed.

Lemma pull_events_recv_after_end (env : Env) (s : nat)
  (bundle_id src_path dest_path : string) (waiting : list Response)
  (ended : list nat) :
  recv_after_end_from ended
    (pull_events env s bundle_id src_path dest_path waiting) = true.
Proof.
  unfold pull_events. cbn. destruct (is_local (discovered env)).
  - cbn. now rewrite Nat.eqb_refl.
  - apply recv_after_end_untar_events.
Qed.

Lemma hid_events_recv_after_end (s : nat) (frames : list Request)
  (ended : list nat) :
  recv_after_end_from ended (drained s frames ++ [EvRecv s]) = true.
Proof.
  unfold drained. rewrite <- app_assoc, recv_after_end_sends. cbn.
  now rewrite Nat.eqb_refl.
Qed.

(** ** The operations on a transport without faults: the rules of [runs]
    and [records] *)

Lemma runs_ret {A} (P : World -> Prop) (a : A) :
  runs P (ret a) [] (fun a' w => a' = a /\ P w).
Proof. intros w HP. exists a, w. auto. Qed.

Lemma runs_ret_any {A} (P : World -> Prop) (a : A) :
  runs P (ret a) [] (fun _ _ => True).
Proof. intros w HP. exists a, w. auto. Qed.

Lemma runs_bind {A B} (P : World -> Prop) (m : M A) (k : A -> M B)
  (e1 e2 : list Event) (Q : A -> World -> Prop) (R : B -> World -> Prop) :
  runs P m e1 Q ->
  (forall a, runs (Q a) (k a) e2 R) ->
  runs P (bind m k) (e1 ++ e2) R.
Proof.
  intros Hm Hk w HP. destruct (Hm w HP) as (a & w1 & Em & HQ).
  destruct (Hk a w1 HQ) as (b & w2 & Ek & HR).
  exists b, w2. unfold bind. rewrite Em, Ek. auto.
Qed.

Lemma runs_given {A} (fact : Prop) (P : World -> Prop) (m : M A)
  (evs : list Event) (Q : A -> World -> Prop) :
  (fact -> runs P m evs Q) -> runs (fun w => fact /\ P w) m evs Q.
Proof. intros H w [Hf HP]. now apply H. Qed.

Lemma runs_as {A} (P : World -> Prop) (m : M A) (evs evs' : list Event)
  (Q : A -> World -> Prop) :
  runs P m evs Q -> evs = evs' -> runs P m evs' Q.
Proof. now intros H <-. Qed.

Lemma runs_post {A} (P : World -> Prop) (m : M A) (evs : list Event)
  (Q Q' : A -> World -> Prop) :
  runs P m evs Q -> (forall a w, Q a w -> Q' a w) -> runs P m evs Q'.
Proof.
  intros H HQ w HP. destruct (H w HP) as (a & w' & E & Hq). eauto.
Qed.

Lemma records_of_runs {A} (P : World -> Prop) (m : M A) (evs : list Event)
  (Q : A -> World -> Prop) :
  runs P m evs Q -> records P m evs.
Proof.
  intros H w HP. destruct (H w HP) as (a & w' & -> & _). reflexivity.
Qed.

Lemma records_raise {A} (P : World -> Prop) (e : Exn) :
  records P (raise (A := A) e) [].
Proof. intros w _. reflexivity. Qed.

Lemma records_bind {A B} (P : World -> Prop) (m : M A) (k : A -> M B)
  (e1 e2 : list Event) (Q : A -> World -> Prop) :
  runs P m e1 Q ->
  (forall a, records (Q a) (k a) e2) ->
  records P (bind m k) (e1 ++ e2).
Proof.
  intros Hm Hk w HP. destruct (Hm w HP) as (a & w1 & Em & HQ).
  specialize (Hk a w1 HQ). unfold bind. rewrite Em.
  destruct (k a w1) as [r w2 ev2]. cbn in *. now subst.
Qed.

Lemma records_given {A} (fact : Prop) (P : World -> Prop) (m : M A)
  (evs : list Event) :
  (fact -> records P m evs) -> records (fun w => fact /\ P w) m evs.
Proof. intros H w [Hf HP]. now apply H. Qed.

Section CalmPrimitives.

Variables (ci : CompanionInfo) (ib : list Response) (n : nat).

Lemma runs_fate :
  runs (calm_at ci ib n) fate [] (fun _ => calm_at ci ib n).
Proof.
  intros w HP. exists tt, w. split; [|exact HP]. apply fate_calm, HP.
Qed.

Lemma runs_send_message (stream : nat) (request : Request) :
  runs (calm_at ci ib n) (send_message stream request)
       [EvSend stream request] (fun _ => calm_at ci ib n).
Proof.
  intros w HP. exists tt, w. split; [|exact HP].
  apply send_message_calm, HP.
Qed.

Lemma runs_stream_end (stream : nat) :
  runs (calm_at ci ib n) (stream_end stream) [EvEnd stream]
       (fun _ => calm_at ci ib n).
Proof.
  intros w HP. exists tt, w. split; [|exact HP].
  apply stream_end_calm, HP.
Qed.

Lemma runs_recv_message (stream : nat) :
  runs (calm_at ci ib n) (recv_message stream) [EvRecv stream]
       (fun r w => r = hd_error ib /\ calm_at ci (tl ib) n w).
Proof.
  intros w ((Hc & Hi & Ho) & Hf & Hs).
  exists (hd_error ib), (set_inbox (tl ib) w).
  rewrite (recv_message_calm w Hf), Hi. repeat split; assumption.
Qed.

Lemma runs_sends {A} (stream : nat) (f : A -> Request) (l : list A) :
  runs (calm_at ci ib n) (for_each (fun x => send_message stream (f x)) l)
       (map (fun x => EvSend stream (f x)) l) (fun _ => calm_at ci ib n).
Proof.
  intros w HP. exists tt, w. split; [|exact HP].
  apply for_each_send_calm, HP.
Qed.

Lemma runs_drain_to_stream (stream : nat) (frames : list Request) :
  runs (calm_at ci ib n) (drain_to_stream stream frames)
       (drained stream frames)
       (fun r w => r = hd_error ib /\ calm_at ci (tl ib) n w).
Proof.
  intros w ((Hc & Hi & Ho) & Hf & Hs).
  exists (hd_error ib), (set_inbox (tl ib) w).
  rewrite (drain_to_stream_calm w stream frames Hf), Hi.
  repeat split; assumption.
Qed.

Lemma runs_self_is_local :
  runs (calm_at ci ib n) self_is_local []
       (fun b w => b = is_local ci /\ calm_at ci ib n w).
Proof.
  intros w HP. exists (is_local ci), w. split; [|auto].
  unfold self_is_local. destruct HP as ((-> & _) & _). reflexivity.
Qed.

Lemma runs_emit (ev : Event) :
  runs (calm_at ci ib n) (emit ev) [ev] (fun _ => calm_at ci ib n).
Proof. intros w HP. exists tt, w. auto. Qed.

Lemma runs_open (rpc : Rpc) :
  runs (calm_at ci ib n) (open rpc) [EvOpen n rpc]
       (fun s w => s = n /\ calm_at ci ib (S n) w).
Proof.
  intros w ((Hc & Hi & Ho) & Hf & Hs).
  exists n, (set_opened (S n) w).
  destruct (stub w) as [c|] eqn:E; [|contradiction].
  unfold open, self_stub, bind, fate. rewrite E. cbn. rewrite Hf. cbn.
  rewrite Ho. repeat split; try assumption. cbn. now rewrite E.
Qed.

Lemma runs_async_with {A} (rpc : Rpc) (body : nat -> M A)
  (evs : list Event) (Q : A -> World -> Prop) :
  runs (calm_at ci ib (S n)) (body n) evs Q ->
  runs (calm_at ci ib n) (async_with rpc body)
       (EvOpen n rpc :: evs ++ [EvClose n]) Q.
Proof.
  intros Hbody w HP.
  destruct (runs_open rpc HP) as (s & w1 & Eo & -> & H1).
  destruct (Hbody w1 H1) as (a & w2 & Eb & HQ).
  exists a, w2. unfold async_with, bind, finally. rewrite Eo, Eb. cbn. auto.
Qed.

Lemma records_async_with {A} (rpc : Rpc) (body : nat -> M A)
  (evs : list Event) :
  records (calm_at ci ib (S n)) (body n) evs ->
  records (calm_at ci ib n) (async_with rpc body)
          (EvOpen n rpc :: evs ++ [EvClose n]).
Proof.
  intros Hbody w HP.
  destruct (runs_open rpc HP) as (s & w1 & Eo & -> & H1).
  specialize (Hbody w1 H1).
  unfold async_with, bind, finally. rewrite Eo.
  destruct (body n w1) as [r w2 ev2]. cbn in *. now subst.
Qed.

End CalmPrimitives.

(** The fuel given to the receiving loop is enough: without faults it
    returns, having read and unpacked every waiting message. *)
Lemma runs_drain_untar_steps (ci : CompanionInfo) (n stream : nat)
  (output_path : string) :
  forall ib k, List.length ib <= k ->
    runs (calm_at ci ib n)
         (drain_untar_steps k (generate_bytes stream) output_path)
         (untar_events stream output_path ib)
         (fun _ => calm_at ci [] n).
Proof.
  assert (G : forall ib,
             runs (calm_at ci ib n) (generate_bytes stream) [EvRecv stream]
                  (fun c w => c = option_map resp_data (hd_error ib) /\
                              calm_at ci (tl ib) n w)).
  { intros ib. unfold generate_bytes.
    eapply runs_as; [|apply app_nil_r].
    eapply runs_bind; [apply runs_recv_message | intro item; cbv beta].
    apply runs_given. intros ->.
    intros w HP. exists (option_map resp_data (hd_error ib)), w. auto. }
  induction ib as [|r ib IH]; intros k Hk.
  - destruct k; cbn [drain_untar_steps];
      (eapply runs_as; [|apply app_nil_r]);
      (eapply runs_bind; [apply G | intro c; cbv beta]);
      apply runs_given; intros ->; cbn;
      intros w HP; exists tt, w; auto.
  - destruct k as [|k]; [simpl in Hk; lia|].
    cbn [drain_untar_steps].
    change (untar_events stream output_path (r :: ib))
      with ([EvRecv stream]
            ++ [EvUntar output_path (resp_data r)]
            ++ untar_events stream output_path ib)%list.
    eapply runs_bind; [apply G | intro c; cbv beta].
    apply runs_given. intros ->. cbn [hd_error option_map tl].
    eapply runs_bind; [apply runs_emit | intro; cbv beta].
    apply IH. simpl in Hk. lia.
Qed.

Lemma runs_drain_untar (ci : CompanionInfo) (ib : list Response)
  (n stream : nat) (output_path : string) :
  runs (calm_at ci ib n) (drain_untar (generate_bytes stream) output_path)
       (untar_events stream output_path ib) (fun _ => calm_at ci [] n).
Proof.
  intros w HP. unfold drain_untar.
  assert (Hi : inbox w = ib) by apply HP. rewrite Hi.
  apply runs_drain_untar_steps with (k := List.length ib); [lia | exact HP].
Qed.

Lemma prepared_calm_at (env : Env) (w : World) :
  calm_at (discovered env) (inbox w) (opened w) (prepared env (calm w)).
Proof. repeat split. discriminate. Qed.

(** A decorated method on a transport without faults. *)
Lemma runs_decorated {A} (env : Env) (func : M A) (evs : list Event)
  (Q : A -> World -> Prop) (w : World) :
  runs (calm_at (discovered env) (inbox w) (opened w)) func evs Q ->
  exists a,
    result (log_and_handle_exceptions env func (calm w)) = Return a /\
    events (log_and_handle_exceptions env func (calm w)) = evs /\
    Q a (world (log_and_handle_exceptions env func (calm w))).
Proof.
  intros H.
  destruct (H _ (prepared_calm_at env w)) as (a & w' & E & HQ).
  destruct (decorated_run env func (calm w)) as (-> & -> & ->).
  rewrite E. exists a. auto.
Qed.

Lemma records_decorated {A} (env : Env) (func : M A) (evs : list Event)
  (w : World) :
  records (calm_at (discovered env) (inbox w) (opened w)) func evs ->
  events (log_and_handle_exceptions env func (calm w)) = evs.
Proof.
  intros H.
  destruct (decorated_run env func (calm w)) as (_ & -> & _).
  apply H, prepared_calm_at.
Qed.

Ltac runs_step :=
  first
    [ eapply runs_bind; [apply runs_send_message | intro; cbv beta]
    | eapply runs_bind; [apply runs_stream_end | intro; cbv beta]
    | eapply runs_bind; [apply runs_recv_message | intro; cbv beta]
    | eapply runs_bind; [apply runs_drain_to_stream | intro; cbv beta]
    | eapply runs_bind; [apply runs_sends | intro; cbv beta]
    | eapply runs_bind;
      [apply runs_self_is_local
      | intro; cbv beta; apply runs_given; intros ->;
        try match goal with
            | E : is_local (discovered _) = _ |- _ => rewrite E
            end]
    | match goal with
      | |- runs (fun w => _ = _ /\ _) _ _ _ => apply runs_given; intro
      end
    | apply runs_ret_any ].

Lemma runs_decorated_unit (env : Env) (func : M unit) (evs : list Event)
  (Q : unit -> World -> Prop) (w : World) :
  runs (calm_at (discovered env) (inbox w) (opened w)) func evs Q ->
  result (log_and_handle_exceptions env func (calm w)) = Return tt /\
  events (log_and_handle_exceptions env func (calm w)) = evs.
Proof.
  intros H. destruct (runs_decorated env w H) as ([] & Hr & He & _). auto.
Qed.

Lemma push_calm (env : Env) (src_paths : list string)
  (bundle_id dest_path : string) (w : World) :
  result (push env src_paths bundle_id dest_path (calm w)) = Return tt /\
  events (push env src_paths bundle_id dest_path (calm w)) =
  (EvOpen (opened w) rpc_push
   :: drained (opened w) (push_frames env src_paths bundle_id dest_path)
   ++ [EvClose (opened w)])%list.
Proof.
  eapply runs_decorated_unit.
  apply runs_async_with. unfold drained, push_frames.
  destruct (is_local (discovered env)) eqn:E;
    (eapply runs_as;
     [ repeat runs_step
     | unfold drained, stream_map; cbn;
       rewrite ?map_map, ?app_nil_r; reflexivity ]).
Qed.

Lemma add_media_calm (env : Env) (file_paths : list string) (w : World) :
  result (add_media env file_paths (calm w)) = Return tt /\
  events (add_media env file_paths (calm w)) =
  (EvOpen (opened w) rpc_add_media
   :: drained (opened w) (add_media_frames env file_paths)
   ++ [EvClose (opened w)])%list.
Proof.
  eapply runs_decorated_unit.
  apply runs_async_with. unfold drained, add_media_frames.
  destruct (is_local (discovered env)) eqn:E;
    (eapply runs_as;
     [ repeat runs_step
     | unfold drained, stream_map; cbn;
       rewrite ?map_map, ?app_nil_r; reflexivity ]).
Qed.

Lemma hid_calm (env : Env) (event_iterator : list HIDEvent) (w : World) :
  result (hid env event_iterator (calm w)) = Return tt /\
  events (hid env event_iterator (calm w)) =
  (EvOpen (opened w) rpc_hid
   :: (drained (opened w) (map event_to_grpc event_iterator)
       ++ [EvRecv (opened w)])
   ++ [EvClose (opened w)])%list.
Proof.
  eapply runs_decorated_unit.
  apply runs_async_with.
  eapply runs_as; [repeat runs_step | reflexivity].
Qed.

Lemma contacts_update_calm (env : Env) (contacts_path : string) (w : World) :
  result (contacts_update env contacts_path (calm w)) = Return tt /\
  events (contacts_update env contacts_path (calm w)) =
  [EvOpen (opened w) rpc_contacts_update;
   EvSend (opened w)
     (ContactsUpdateRequest (Payload_data (create_tar env [contacts_path])));
   EvEnd (opened w); EvRecv (opened w); EvClose (opened w)].
Proof.
  eapply runs_decorated_unit.
  unfold contacts_update_async, unary_unary.
  eapply runs_as.
  - eapply runs_bind; [|intro; apply runs_ret_any].
    apply runs_async_with.
    eapply runs_bind; [apply runs_fate | intro; cbv beta].
    eapply runs_bind; [apply runs_emit | intro; cbv beta].
    eapply runs_bind; [apply runs_emit | intro; cbv beta].
    apply runs_recv_message.
  - reflexivity.
Qed.

Lemma pull_calm (env : Env) (bundle_id src_path dest_path : string)
  (w : World) :
  result (pull env bundle_id src_path dest_path (calm w))
  = Return (Payload_file_path dest_path) /\
  events (pull env bundle_id src_path dest_path (calm w)) =
  (EvOpen (opened w) rpc_pull
   :: pull_events env (opened w) bundle_id src_path dest_path (inbox w)
   ++ [EvClose (opened w)])%list /\
  inbox (world (pull env bundle_id src_path dest_path (calm w)))
  = if is_local (discovered env) then tl (inbox w) else [].
Proof.
  assert (H : runs (calm_at (discovered env) (inbox w) (opened w))
                (pull_async bundle_id src_path dest_path)
                (EvOpen (opened w) rpc_pull
                 :: pull_events env (opened w) bundle_id src_path dest_path
                      (inbox w)
                 ++ [EvClose (opened w)])%list
                (fun a w' =>
                   a = Payload_file_path dest_path /\
                   inbox w' = if is_local (discovered env)
                              then tl (inbox w) else [])).
  { unfold pull_async, pull_events, pull_request.
    eapply runs_as; [|apply app_nil_r].
    eapply runs_bind
      with (Q := fun _ w' => inbox w' = if is_local (discovered env)
                                        then tl (inbox w) else []).
    - apply runs_async_with.
      destruct (is_local (discovered env)) eqn:E.
      + eapply runs_post.
        * eapply runs_as;
            [ do 4 runs_step;
              (eapply runs_bind;
               [apply runs_recv_message | intro; cbv beta]);
              apply runs_given; intros _; apply runs_ret
            | reflexivity ].
        * cbv beta. intros _ w' (_ & (_ & Hi & _) & _). exact Hi.
      + eapply runs_post.
        * eapply runs_as;
            [do 4 runs_step; apply runs_drain_untar | reflexivity].
        * cbv beta. intros _ w' ((_ & Hi & _) & _). exact Hi.
    - intros a w0 HP. exists (Payload_file_path dest_path), w0. auto. }
  destruct (runs_decorated env w H) as (a & Hr & He & -> & Hi). auto.
Qed.

Lemma records_install_stream (ci : CompanionInfo) (ib : list Response)
  (n : nat) (destination : Destination) (generator : list Request) :
  records (calm_at ci ib n)
    (async_with rpc_install (fun stream =>
       send_message stream (InstallRequest_destination destination) ;;
       response <- drain_to_stream stream generator ;;
       match response with
       | Some r => ret {| name := resp_name r; uuid := resp_uuid r |}
       | None => raise (AttributeError "name")
       end))
    (EvOpen n rpc_install
     :: drained n (InstallRequest_destination destination :: generator)
     ++ [EvClose n]).
Proof.
  apply records_async_with.
  change (drained n (InstallRequest_destination destination :: generator))
    with ([EvSend n (InstallRequest_destination destination)]
          ++ drained n generator)%list.
  eapply records_bind; [apply runs_send_message | intro; cbv beta].
  rewrite <- (app_nil_r (drained n generator)).
  eapply records_bind; [apply runs_drain_to_stream | intro response; cbv beta].
  destruct response as [r|].
  - eapply records_of_runs, runs_ret_any.
  - apply records_raise.
Qed.

Lemma records_as {A} (P : World -> Prop) (m : M A) (evs evs' : list Event) :
  records P m evs -> evs = evs' -> records P m evs'.
Proof. now intros H <-. Qed.

Lemma install_calm (env : Env) (destination : Destination) (bundle : Bundle)
  (w : World) :
  events (install_to env destination bundle (calm w))
  = install_events env destination bundle (opened w).
Proof.
  apply records_decorated.
  unfold _install_to_destination, install_events, install_stream,
    install_frames, strategy_frames.
  destruct bundle as [s|io].
  - destruct (truthy (urlparse_scheme env s)).
    + eapply records_as.
      * eapply records_bind; [apply runs_async_with, runs_ret | intro g].
        apply records_given. intros ->. apply records_install_stream.
      * reflexivity.
    + destruct (resolve_strict env s) as [p|].
      * destruct (is_local (discovered env)) eqn:E.
        -- eapply records_as.
           ++ eapply records_bind; [|intro g].
              ** eapply runs_bind;
                   [apply runs_self_is_local | intro b; cbv beta].
                 apply runs_given. intros ->. rewrite E.
                 apply runs_async_with, runs_ret.
              ** apply records_given. intros ->.
                 apply records_install_stream.
           ++ reflexivity.
        -- eapply records_as.
           ++ eapply records_bind; [|intro g].
              ** eapply runs_bind;
                   [apply runs_self_is_local | intro b; cbv beta].
                 apply runs_given. intros ->. rewrite E. apply runs_ret.
              ** apply records_given. intros ->.
                 apply records_install_stream.
           ++ reflexivity.
      * intros w0 _. reflexivity.
  - eapply records_as.
    + eapply records_bind; [apply runs_ret | intro g].
      apply records_given. intros ->. apply records_install_stream.
    + reflexivity.
Qed.

(** A path that does not exist stops the install before anything is done on
    the transport, whatever the transport would have done. *)
Lemma install_missing (env : Env) (destination : Destination) (s : string)
  (w : World) :
  truthy (urlparse_scheme env s) = false ->
  resolve_strict env s = None ->
  result (install_to env destination (Bundle_str s) w)
  = Raise (FileNotFoundError s) /\
  events (install_to env destination (Bundle_str s) w) = [].
Proof.
  intros Hs Hr. unfold install_to.
  destruct (decorated_run env
              (_install_to_destination env (Bundle_str s) destination) w)
    as (-> & -> & _).
  unfold _install_to_destination. rewrite Hs, Hr. auto.
Qed.

(** ** Counting *)

Lemma receives_app (l1 l2 : list Event) :
  receives (l1 ++ l2) = receives l1 + receives l2.
Proof. unfold receives. now rewrite filter_app, length_app. Qed.

Lemma opens_app (l1 l2 : list Event) : opens (l1 ++ l2) = opens l1 + opens l2.
Proof. unfold opens. now rewrite filter_app, length_app. Qed.

Lemma receives_sends (s : nat) (frames : list Request) :
  receives (map (EvSend s) frames) = 0.
Proof. induction frames as [|r l IH]; [reflexivity | exact IH]. Qed.

Lemma opens_sends (s : nat) (frames : list Request) :
  opens (map (EvSend s) frames) = 0.
Proof. induction frames as [|r l IH]; [reflexivity | exact IH]. Qed.

Lemma receives_drained (s : nat) (frames : list Request) :
  receives (drained s frames) = 1.
Proof. unfold drained. now rewrite receives_app, receives_sends. Qed.

Lemma opens_drained (s : nat) (frames : list Request) :
  opens (drained s frames) = 0.
Proof. unfold drained. now rewrite opens_app, opens_sends. Qed.

Lemma receives_untar_events (s : nat) (p : string) (waiting : list Response) :
  receives (untar_events s p waiting) = S (List.length waiting).
Proof.
  unfold untar_events. rewrite receives_app. cbn.
  induction waiting as [|r l IH]; [reflexivity|].
  cbn [flat_map]. rewrite receives_app. cbn. lia.
Qed.

Lemma untarred_untar_events (s : nat) (p : string) (waiting : list Response) :
  untarred (untar_events s p waiting)
  = map (fun r => (p, resp_data r)) waiting.
Proof.
  unfold untar_events.
  induction waiting as [|r l IH]; [reflexivity|].
  cbn. now rewrite IH.
Qed.

Lemma receives_install_stream (env : Env) (destination : Destination)
  (bundle : Bundle) (n : nat) :
  receives (install_stream env destination bundle n) = 1.
Proof.
  unfold install_stream.
  change (EvOpen n rpc_install
          :: drained n (install_frames env destination bundle) ++ [EvClose n])%list
    with ([EvOpen n rpc_install]
          ++ drained n (install_frames env destination bundle)
          ++ [EvClose n])%list.
  now rewrite !receives_app, receives_drained.
Qed.

Lemma opens_install_stream (env : Env) (destination : Destination)
  (bundle : Bundle) (n : nat) :
  opens (install_stream env destination bundle n) = 1.
Proof.
  unfold install_stream.
  change (EvOpen n rpc_install
          :: drained n (install_frames env destination bundle) ++ [EvClose n])%list
    with ([EvOpen n rpc_install]
          ++ drained n (install_frames env destination bundle)
          ++ [EvClose n])%list.
  now rewrite !opens_app, opens_drained.
Qed.

Lemma sent_install_stream (env : Env) (destination : Destination)
  (bundle : Bundle) (n : nat) :
  sent (install_stream env destination bundle n)
  = install_frames env destination bundle.
Proof.
  unfold install_stream. cbn [sent]. rewrite sent_app, sent_drained.
  cbn [sent]. apply app_nil_r.
Qed.

(** Every frame of the table is a payload frame of the kind the table
    names. *)
Lemma strategy_frames_kind (env : Env) (bundle : Bundle) :
  Forall (fun r => frame_kind r
                   = select (source_variant env bundle)
                            (is_local (discovered env)))
         (strategy_frames env bundle (is_local (discovered env))).
Proof.
  unfold strategy_frames, source_variant.
  destruct bundle as [s|io].
  - destruct (truthy (urlparse_scheme env s)); [now repeat constructor|].
    destruct (resolve_strict env s) as [p|]; [|constructor].
    destruct (is_local (discovered env)); [now repeat constructor|].
    apply Forall_map. now apply Forall_forall.
  - replace (select InMemoryStream (is_local (discovered env)))
      with DataChunk by now destruct (is_local (discovered env)).
    apply Forall_map. now apply Forall_forall.
Qed.

Lemma strategy_frames_payload (env : Env) (bundle : Bundle) (local : bool) :
  filter (fun r => negb (is_metadata r)) (strategy_frames env bundle local)
  = strategy_frames env bundle local.
Proof.
  apply forallb_filter_id. apply forallb_forall.
  unfold strategy_frames. intros r Hr.
  destruct bundle as [s|io].
  - destruct (truthy (urlparse_scheme env s)).
    + destruct Hr as [<- | []]. reflexivity.
    + destruct (resolve_strict env s) as [p|]; [|destruct Hr].
      destruct local.
      * destruct Hr as [<- | []]. reflexivity.
      * apply in_map_iff in Hr as (c & <- & _). reflexivity.
  - apply in_map_iff in Hr as (c & <- & _). reflexivity.
Qed.

Lemma payload_frames_install_frames (env : Env) (destination : Destination)
  (bundle : Bundle) :
  filter (fun r => negb (is_metadata r))
         (install_frames env destination bundle)
  = strategy_frames env bundle (is_local (discovered env)).
Proof. unfold install_frames. cbn. apply strategy_frames_payload. Qed.

(** With entries placed in subfolders, every entry of the archive lies in
    the subfolder of one of the input paths. *)
Lemma archive_entries_in_subfolders (env : Env) (paths : list string) :
  forall i,
    Forall (fun e => exists j rel,
                i <= j < i + List.length paths /\
                relativePath (fst e) = (subfolder env j ++ "/" ++ rel)%string)
           (archive_entries env i paths true).
Proof.
  induction paths as [|p paths IH]; intros i; [constructor|].
  cbn [archive_entries]. apply Forall_app. split.
  - apply Forall_map. apply Forall_forall. intros [[rel m] content] _.
    exists i, rel. cbn. split; [lia | reflexivity].
  - eapply Forall_impl; [|apply (IH (S i))].
    cbn. intros e (j & rel & Hj & He). exists j, rel. split; [lia | exact He].
Qed.


Lemma ends_drained (s : nat) (frames : list Request) :
  ends (drained s frames) = 1.
Proof.
  unfold drained, ends. rewrite filter_app, length_app. cbn.
  induction frames as [|r l IH]; [reflexivity | exact IH].
Qed.

Lemma ends_untar_events (s : nat) (p : string) (waiting : list Response) :
  ends (untar_events s p waiting) = 0.
Proof.
  unfold untar_events, ends. rewrite filter_app, length_app. cbn.
  induction waiting as [|r l IH]; [reflexivity | exact IH].
Qed.

(** A framed stream is one stream, ended no more often than its complete
    body ends it. *)
Lemma framed_one_stream {A} (n : nat) (rpc : Rpc) (full : list Event)
  (o : Outcome A) :
  framed n rpc full o ->
  opens full = 0 ->
  opens (events o) <= 1 /\ ends (events o) <= ends full.
Proof.
  intros [[-> _] | (d & -> & Hd & _)] Hfull; [cbn; lia|].
  change (EvOpen n rpc :: d ++ [EvClose n])%list
    with ([EvOpen n rpc] ++ d ++ [EvClose n])%list.
  unfold opens, ends in *. rewrite !filter_app, !length_app. cbn.
  pose proof (is_prefix_length (is_prefix_filter is_open Hd)).
  pose proof (is_prefix_length (is_prefix_filter is_end Hd)).
  lia.
Qed.

(** push, add_media, pull and hid use one stream and end it at most once,
    whatever the transport does. *)
Lemma other_operations_one_stream (env : Env) (w : World) :
  (forall src b d,
      opens (call_events (push env src b d) w) <= 1 /\
      ends (call_events (push env src b d) w) <= 1) /\
  (forall paths,
      opens (call_events (add_media env paths) w) <= 1 /\
      ends (call_events (add_media env paths) w) <= 1) /\
  (forall b s d,
      opens (call_events (pull env b s d) w) <= 1 /\
      ends (call_events (pull env b s d) w) <= 1) /\
  (forall evs,
      opens (call_events (hid env evs) w) <= 1 /\
      ends (call_events (hid env evs) w) <= 1).
Proof.
  unfold call_events. repeat split.
  - eapply framed_one_stream; [apply push_framed | apply opens_drained].
  - rewrite <- (ends_drained (opened w) (push_frames env src b d)).
    eapply framed_one_stream; [apply push_framed | apply opens_drained].
  - eapply framed_one_stream; [apply add_media_framed | apply opens_drained].
  - rewrite <- (ends_drained (opened w) (add_media_frames env paths)).
    eapply framed_one_stream; [apply add_media_framed | apply opens_drained].
  - eapply framed_one_stream; [apply pull_framed|].
    unfold pull_events. destruct (is_local (discovered env)); [reflexivity|].
    cbn. unfold opens, untar_events. rewrite filter_app, length_app. cbn.
    induction (inbox w) as [|r l IH]; [reflexivity | exact IH].
  - destruct (framed_one_stream (pull_framed env b s d w)) as [_ H].
    + unfold pull_events. destruct (is_local (discovered env)); [reflexivity|].
      cbn. unfold opens, untar_events. rewrite filter_app, length_app. cbn.
      induction (inbox w) as [|r l IH]; [reflexivity | exact IH].
    + etransitivity; [exact H|]. unfold pull_events.
      destruct (is_local (discovered env)); [cbn; lia|].
      change (ends (EvSend ?a ?b :: EvEnd ?c :: ?l)) with (S (ends l)).
      cbn. pose proof (ends_untar_events (opened w) d (inbox w)).
      unfold ends in *. cbn. lia.
  - eapply framed_one_stream; [apply hid_framed|].
    now rewrite opens_app, opens_drained.
  - destruct (framed_one_stream (hid_framed env evs w)) as [_ H].
    + now rewrite opens_app, opens_drained.
    + etransitivity; [exact H|].
      unfold ends. rewrite filter_app, length_app.
      fold (ends (drained (opened w) (map event_to_grpc evs))).
      rewrite ends_drained. cbn. lia.
Qed.

(** * The claims *)

(** C1. Whatever the transport does, every payload frame an install sends
    has the kind the decision table gives for the variant of the source and
    the locality of the companion; so a local path never yields a DataChunk
    and an in-memory bundle never yields a PathRef.  When nothing fails, the
    payload frames are exactly those of the table: the single URLRef; the
    single PathRef holding the resolved path; the blocks of the archive of
    the path; the blocks of the in-memory source. *)
Theorem install_strategy (env : Env) (destination : Destination)
  (bundle : Bundle) (w : World) :
  Forall (fun r => frame_kind r
                   = select (source_variant env bundle)
                            (is_local (discovered env)))
         (payload_frames
            (call_events (install_to env destination bundle) w))
  /\ payload_frames
       (call_events (install_to env destination bundle) (calm w))
     = strategy_frames env bundle (is_local (discovered env)).
Proof.
  unfold payload_frames, call_events. split.
  - eapply is_prefix_Forall; [|apply strategy_frames_kind].
    rewrite <- (payload_frames_install_frames env destination bundle).
    apply is_prefix_filter, install_sent_prefix.
  - rewrite install_calm.
    assert (Hstream :
              forall n,
                filter (fun r => negb (is_metadata r))
                       (sent (install_stream env destination bundle n))
                = strategy_frames env bundle (is_local (discovered env))).
    { intros n. rewrite sent_install_stream.
      apply payload_frames_install_frames. }
    unfold install_events. destruct bundle as [s|io]; [|apply Hstream].
    destruct (truthy (urlparse_scheme env s)) eqn:Hs; [apply Hstream|].
    destruct (resolve_strict env s) as [p|] eqn:Hr.
    + destruct (is_local (discovered env)); apply Hstream.
    + unfold strategy_frames. now rewrite Hs, Hr.
Qed.

(** C2 (what the code does instead). A transport failure raised while the
    coroutine runs is not translated: when the first [send_message] of a
    push raises [GRPCError], the caller receives that very [GRPCError], not
    an [IdbException]. *)
Theorem push_transport_failure_escapes (env : Env) (src_paths : list string)
  (bundle_id dest_path message : string) (rest : list (option Exn))
  (w : World) :
  call_result (push env src_paths bundle_id dest_path)
              (set_faults (None :: Some (GRPCError message) :: rest) w)
  = Raise (GRPCError message).
Proof.
  unfold call_result, push.
  destruct (decorated_run env
              (push_async env src_paths bundle_id dest_path)
              (set_faults (None :: Some (GRPCError message) :: rest) w))
    as (-> & _).
  reflexivity.
Qed.

(** C3 (what the code does instead). When nothing fails, an install from a
    URL or from a path on the machine of a local companion opens two
    streams; the other installs that reach the transport open one. *)
Theorem install_reference_opens_two_streams (env : Env)
  (destination : Destination) (s : string) (w : World) :
  opens (call_events (install_to env destination (Bundle_str s)) (calm w))
  = if truthy (urlparse_scheme env s) then 2
    else match resolve_strict env s with
         | None => 0
         | Some _ => if is_local (discovered env) then 2 else 1
         end.
Proof.
  unfold call_events. rewrite install_calm. unfold install_events.
  assert (Htwo : forall n l, opens (EvOpen n rpc_install :: EvClose n :: l)
                             = S (opens l)) by reflexivity.
  destruct (truthy (urlparse_scheme env s)).
  - now rewrite Htwo, opens_install_stream.
  - destruct (resolve_strict env s) as [p|]; [|reflexivity].
    destruct (is_local (discovered env)).
    + now rewrite Htwo, opens_install_stream.
    + apply opens_install_stream.
Qed.

(** C4, as stated, fails: a remote pull of two chunks receives three times
    (once per chunk and once to find the stream exhausted), not exactly
    once. *)
Lemma pull_remote_receives_per_chunk :
  receives
    (call_events
       (pull (example_env false) "com.example.app" "Documents/a.txt"
             "/tmp/out")
       (fresh [example_response; example_response]))
  <> 1.
Proof. vm_compute. discriminate. Qed.

(** C4, amended. In install, push, add_media, pull and hid, whatever the
    transport does, no receive happens on a stream before end-of-stream was
    signalled on it.  When nothing fails, push and add_media receive exactly
    once, install receives exactly once unless its source path is missing,
    local pull receives exactly once, and remote pull receives once per
    waiting chunk and once more to find the stream exhausted. *)
Theorem receive_after_end_of_stream (env : Env) (w : World) :
  (forall dest bundle,
      recv_after_end (call_events (install_to env dest bundle) w) = true) /\
  (forall src b d,
      recv_after_end (call_events (push env src b d) w) = true) /\
  (forall paths,
      recv_after_end (call_events (add_media env paths) w) = true) /\
  (forall b s d,
      recv_after_end (call_events (pull env b s d) w) = true) /\
  (forall evs,
      recv_after_end (call_events (hid env evs) w) = true) /\
  (forall dest bundle,
      receives (call_events (install_to env dest bundle) (calm w))
      = if source_missing env bundle then 0 else 1) /\
  (forall src b d,
      receives (call_events (push env src b d) (calm w)) = 1) /\
  (forall paths,
      receives (call_events (add_media env paths) (calm w)) = 1) /\
  (forall b s d,
      receives (call_events (pull env b s d) (calm w))
      = if is_local (discovered env) then 1
        else S (List.length (inbox w))).
Proof.
  unfold call_events, recv_after_end.
  assert (Hone : forall n rpc frames,
             receives (EvOpen n rpc :: drained n frames ++ [EvClose n]) = 1).
  { intros n rpc frames.
    change (EvOpen n rpc :: drained n frames ++ [EvClose n])%list
      with ([EvOpen n rpc] ++ drained n frames ++ [EvClose n])%list.
    now rewrite !receives_app, receives_drained. }
  repeat split.
  - intros. apply install_recv_after_end.
  - intros. eapply framed_recv_after_end; [apply push_framed|].
    apply recv_after_end_drained.
  - intros. eapply framed_recv_after_end; [apply add_media_framed|].
    apply recv_after_end_drained.
  - intros. eapply framed_recv_after_end; [apply pull_framed|].
    apply pull_events_recv_after_end.
  - intros. eapply framed_recv_after_end; [apply hid_framed|].
    apply hid_events_recv_after_end.
  - intros dest bundle. rewrite install_calm.
    unfold install_events, source_missing.
    assert (Htwo : forall n l,
               receives (EvOpen n rpc_install :: EvClose n :: l)
               = receives l) by reflexivity.
    destruct bundle as [s|io]; [|apply receives_install_stream].
    destruct (truthy (urlparse_scheme env s)); cbn [negb andb].
    + now rewrite Htwo, receives_install_stream.
    + destruct (resolve_strict env s) as [p|]; [|reflexivity].
      destruct (is_local (discovered env)).
      * now rewrite Htwo, receives_install_stream.
      * apply receives_install_stream.
  - intros. destruct (push_calm env src b d w) as [_ ->]. apply Hone.
  - intros. destruct (add_media_calm env paths w) as [_ ->]. apply Hone.
  - intros. destruct (pull_calm env b s d w) as (_ & -> & _).
    unfold pull_events.
    change (EvOpen ?n rpc_pull :: (EvSend ?n ?r :: EvEnd ?n :: ?l) ++ ?c)%list
      with ([EvOpen n rpc_pull; EvSend n r; EvEnd n] ++ l ++ c)%list.
    rewrite !receives_app.
    destruct (is_local (discovered env)); [reflexivity|].
    rewrite receives_untar_events. cbn. lia.
Qed.

(** C5, as stated, fails: the install of a missing path raises the
    [FileNotFoundError] of the path resolution, not an [IdbException]. *)
Lemma install_missing_not_domain_error :
  ~ exists arg,
      call_result (install (example_env true) (Bundle_str "/tmp/missing.app"))
                  (fresh [example_response])
      = Raise (IdbException arg).
Proof. intros [arg H]. vm_compute in H. discriminate H. Qed.

(** C5, amended. An install whose string source has no URL scheme and does
    not resolve to an existing path fails with the [FileNotFoundError] of
    the resolution, and nothing has been done on the transport: no stream
    was opened and no frame sent, whatever the transport would have done. *)
Theorem install_missing_fails_before_open (env : Env)
  (destination : Destination) (s : string) (w : World) :
  truthy (urlparse_scheme env s) = false ->
  resolve_strict env s = None ->
  call_result (install_to env destination (Bundle_str s)) w
  = Raise (FileNotFoundError s) /\
  call_events (install_to env destination (Bundle_str s)) w = [].
Proof. apply install_missing. Qed.

(** C5, amended, on the example machine: the missing path
    [/tmp/missing.app] and a remote companion. *)
Lemma install_missing_fails_before_open_witness :
  call_result (install_to (example_env false) APP
                          (Bundle_str "/tmp/missing.app"))
              (fresh [example_response])
  = Raise (FileNotFoundError "/tmp/missing.app") /\
  call_events (install_to (example_env false) APP
                          (Bundle_str "/tmp/missing.app"))
              (fresh [example_response])
  = [].
Proof.
  apply (install_missing_fails_before_open (example_env false) APP
           "/tmp/missing.app" (fresh [example_response]));
    reflexivity.
Defined.

(** C6. Whatever the transport does, the frames a push sends are a prefix of
    the metadata frame followed by the payload frames: one PathRef per source
    path in the order given when the companion is local, the blocks of the
    one archive of all source paths when it is remote.  When nothing fails,
    the push returns and all of them were sent, in that order, on its one
    stream, followed by end-of-stream and one receive. *)
Theorem push_frame_order (env : Env) (src_paths : list string)
  (bundle_id dest_path : string) (w : World) :
  is_prefix (sent (call_events (push env src_paths bundle_id dest_path) w))
            (PushRequest_inner bundle_id dest_path
             :: (if is_local (discovered env)
                 then map (fun p => PushRequest_payload (Payload_file_path p))
                          src_paths
                 else map (fun c => PushRequest_payload (Payload_data c))
                          (generate_tar env src_paths false)))
  /\ call_result (push env src_paths bundle_id dest_path) (calm w)
     = Return tt
  /\ call_events (push env src_paths bundle_id dest_path) (calm w)
     = (EvOpen (opened w) rpc_push
        :: EvSend (opened w) (PushRequest_inner bundle_id dest_path)
        :: map (EvSend (opened w))
               (if is_local (discovered env)
                then map (fun p => PushRequest_payload (Payload_file_path p))
                         src_paths
                else map (fun c => PushRequest_payload (Payload_data c))
                         (generate_tar env src_paths false))
        ++ [EvEnd (opened w); EvRecv (opened w); EvClose (opened w)])%list.
Proof.
  unfold call_events, call_result.
  destruct (push_calm env src_paths bundle_id dest_path w) as [Hr He].
  repeat split; [|exact Hr|].
  - fold (push_frames env src_paths bundle_id dest_path).
    rewrite <- (sent_drained (opened w)
                  (push_frames env src_paths bundle_id dest_path)).
    eapply framed_sent, push_framed.
  - rewrite He. unfold drained, push_frames. cbn.
    now rewrite <- app_assoc.
Qed.

(** C7. When nothing fails, a pull returns, and it sends exactly one frame:
    the request naming the bundle and the source path, with the destination
    path when the companion is local and without it when it is remote.  A
    local pull then receives once and unpacks nothing.  A remote pull
    receives the incoming chunks until the stream is exhausted, hands each
    of them, in order, to the extractor under the destination path, and
    leaves nothing unread. *)
Theorem pull_direction (env : Env) (bundle_id src_path dest_path : string)
  (w : World) :
  call_result (pull env bundle_id src_path dest_path) (calm w)
  = Return (Payload_file_path dest_path)
  /\ sent (call_events (pull env bundle_id src_path dest_path) (calm w))
     = [PullRequest bundle_id src_path
          (if is_local (discovered env) then Some dest_path else None)]
  /\ untarred (call_events (pull env bundle_id src_path dest_path) (calm w))
     = (if is_local (discovered env) then []
        else map (fun r => (dest_path, resp_data r)) (inbox w))
  /\ receives (call_events (pull env bundle_id src_path dest_path) (calm w))
     = (if is_local (discovered env) then 1 else S (List.length (inbox w)))
  /\ call_events (pull env bundle_id src_path dest_path) (calm w)
     = (EvOpen (opened w) rpc_pull
        :: EvSend (opened w)
             (PullRequest bundle_id src_path
                (if is_local (discovered env) then Some dest_path else None))
        :: EvEnd (opened w)
        :: (if is_local (discovered env) then [EvRecv (opened w)]
            else untar_events (opened w) dest_path (inbox w))
        ++ [EvClose (opened w)])%list
  /\ inbox (world (pull env bundle_id src_path dest_path (calm w)))
     = (if is_local (discovered env) then tl (inbox w) else []).
Proof.
  unfold call_events, call_result.
  destruct (pull_calm env bundle_id src_path dest_path w) as (Hr & He & Hi).
  rewrite He. unfold pull_events, pull_request.
  repeat split; [exact Hr | | | | exact Hi].
  - cbn [app sent]. rewrite sent_app.
    destruct (is_local (discovered env)); [reflexivity|].
    now rewrite sent_untar_events.
  - cbn [app untarred].
    destruct (is_local (discovered env)); [reflexivity|].
    assert (Happ : forall l, untarred (l ++ [EvClose (opened w)]) = untarred l).
    { induction l as [|ev l IH]; [reflexivity|]. destruct ev; cbn; now rewrite ?IH. }
    rewrite Happ. apply untarred_untar_events.
  - change (EvOpen ?n rpc_pull :: (EvSend ?n ?r :: EvEnd ?n :: ?l) ++ ?c)%list
      with ([EvOpen n rpc_pull; EvSend n r; EvEnd n] ++ l ++ c)%list.
    rewrite !receives_app.
    destruct (is_local (discovered env)); [reflexivity|].
    rewrite receives_untar_events. cbn. lia.
Qed.

(** C8, as stated, fails: with a remote companion and an archive of two
    blocks, contacts_update does not record what the streaming skeleton
    records (two DataChunk frames); it sends one frame holding the whole
    archive. *)
Lemma contacts_update_not_streamed :
  call_events (contacts_update (example_env false) "/tmp/a.txt")
              (fresh [example_response])
  <> call_events (contacts_update_skeleton (example_env false) "/tmp/a.txt")
                 (fresh [example_response]).
Proof. vm_compute. discriminate. Qed.

(** C8, amended. contacts_update does not look at the locality of the
    companion: when nothing fails it packs the contacts path into one
    archive, whole, and makes a single unary call whose one request carries
    that archive as its data; the request goes out together with
    end-of-stream and one response is received. *)
Theorem contacts_update_single_request (env : Env) (contacts_path : string)
  (w : World) :
  call_result (contacts_update env contacts_path) (calm w) = Return tt /\
  call_events (contacts_update env contacts_path) (calm w) =
  [EvOpen (opened w) rpc_contacts_update;
   EvSend (opened w)
     (ContactsUpdateRequest (Payload_data (create_tar env [contacts_path])));
   EvEnd (opened w); EvRecv (opened w); EvClose (opened w)].
Proof. apply contacts_update_calm. Qed.

(** C9. Whatever the transport does, the frames add_media sends are a
    prefix of: one PathRef per input path in the order given when the
    companion is local; the blocks of the one archive of all input paths,
    packed with place-in-subfolders, when it is remote, and these are all
    DataChunk frames.  When nothing fails, add_media returns and all of them
    were sent, in that order, followed by end-of-stream and one receive. *)
Theorem add_media_frame_order (env : Env) (file_paths : list string)
  (w : World) :
  is_prefix (sent (call_events (add_media env file_paths) w))
            (if is_local (discovered env)
             then map (fun p => AddMediaRequest (Payload_file_path p))
                      file_paths
             else map (fun c => AddMediaRequest (Payload_data c))
                      (generate_tar env file_paths true))
  /\ Forall (fun r => frame_kind r
                      = if is_local (discovered env) then PathRef
                        else DataChunk)
            (sent (call_events (add_media env file_paths) w))
  /\ call_result (add_media env file_paths) (calm w) = Return tt
  /\ call_events (add_media env file_paths) (calm w)
     = (EvOpen (opened w) rpc_add_media
        :: map (EvSend (opened w))
               (if is_local (discovered env)
                then map (fun p => AddMediaRequest (Payload_file_path p))
                         file_paths
                else map (fun c => AddMediaRequest (Payload_data c))
                         (generate_tar env file_paths true))
        ++ [EvEnd (opened w); EvRecv (opened w); EvClose (opened w)])%list.
Proof.
  unfold call_events, call_result.
  destruct (add_media_calm env file_paths w) as [Hr He].
  assert (Hpre : is_prefix (sent (events (add_media env file_paths w)))
                           (add_media_frames env file_paths)).
  { rewrite <- (sent_drained (opened w) (add_media_frames env file_paths)).
    eapply framed_sent, add_media_framed. }
  repeat split; [exact Hpre | | exact Hr |].
  - eapply is_prefix_Forall; [exact Hpre|].
    unfold add_media_frames.
    destruct (is_local (discovered env));
      apply Forall_map; now apply Forall_forall.
  - rewrite He. unfold drained, add_media_frames.
    now rewrite <- app_assoc.
Qed.

(** C10. When nothing fails, a push of no source path returns, in either
    locality, having sent the metadata frame and nothing else, signalled
    end-of-stream and received once. *)
Theorem push_empty_is_noop (env : Env) (bundle_id dest_path : string)
  (w : World) :
  call_result (push env [] bundle_id dest_path) (calm w) = Return tt /\
  call_events (push env [] bundle_id dest_path) (calm w) =
  [EvOpen (opened w) rpc_push;
   EvSend (opened w) (PushRequest_inner bundle_id dest_path);
   EvEnd (opened w); EvRecv (opened w); EvClose (opened w)].
Proof.
  unfold call_events, call_result.
  destruct (push_calm env [] bundle_id dest_path w) as [Hr He].
  split; [exact Hr|]. rewrite He. unfold drained, push_frames.
  rewrite generate_tar_nil. now destruct (is_local (discovered env)).
Qed.

(** * Further properties *)

(** ** Every stream lives by the protocol *)

Ltac session_simpl :=
  repeat (progress (cbn; rewrite ?Nat.eqb_refl)).

Lemma session_run_app (l1 l2 : list Event) :
  forall st,
    session_run st (l1 ++ l2) =
    match session_run st l1 with
    | Some st' => session_run st' l2
    | None => None
    end.
Proof.
  induction l1 as [|ev l1 IH]; intros st; [reflexivity|].
  cbn. destruct (session_step st ev); [apply IH | reflexivity].
Qed.

Lemma session_run_sends (n : nat) (frames : list Request) (rest : list Event) :
  session_run (Sending n) (map (EvSend n) frames ++ rest)
  = session_run (Sending n) rest.
Proof.
  induction frames as [|r l IH]; [reflexivity|].
  cbn [map app session_run session_step]. rewrite Nat.eqb_refl. exact IH.
Qed.

Lemma session_run_drained (n : nat) (frames : list Request) :
  session_run (Sending n) (drained n frames) = Some (Receiving n).
Proof.
  unfold drained. rewrite session_run_sends. now session_simpl.
Qed.

Lemma session_run_untar_events (n : nat) (p : string)
  (waiting : list Response) :
  session_run (Receiving n) (untar_events n p waiting) = Some (Receiving n).
Proof.
  unfold untar_events.
  induction waiting as [|r l IH]; [now session_simpl|].
  cbn [flat_map app session_run session_step]. rewrite Nat.eqb_refl.
  exact IH.
Qed.

Lemma session_run_prefix (d rest : list Event) :
  forall st st2,
    session_run st (d ++ rest) = Some st2 ->
    exists st1, session_run st d = Some st1.
Proof.
  intros st st2 H. rewrite session_run_app in H.
  destruct (session_run st d) as [st1|]; [eauto | discriminate].
Qed.

(** While no stream is closed, the open stream stays open. *)
Lemma session_run_alive (n : nat) (d : list Event) :
  forall st st1,
    alive n st ->
    session_run st d = Some st1 ->
    Forall (fun ev => is_close ev = false) d ->
    alive n st1.
Proof.
  induction d as [|ev d IH]; intros st st1 Ha Hrun Hd.
  - cbn in Hrun. now injection Hrun as <-.
  - inversion Hd as [|? ? Hev Hd']; subst. cbn in Hrun.
    destruct (session_step st ev) as [st'|] eqn:E; [|discriminate].
    apply (IH st' st1); [|assumption|assumption].
    destruct Ha as [-> | ->]; destruct ev; cbn in E, Hev;
      try discriminate;
      try (destruct (Nat.eqb n stream); [|discriminate]);
      injection E as <-; unfold alive; auto.
Qed.

(** A framed stream keeps to the protocol as soon as its complete body does
    and does not close the stream itself. *)
Lemma framed_events_session (n : nat) (rpc : Rpc) (full evs : list Event)
  (st : Session) :
  framed_events n rpc full evs ->
  session_run (Sending n) full = Some st ->
  Forall (fun ev => is_close ev = false) full ->
  session_run Closed evs = Some Closed.
Proof.
  intros [-> | (d & -> & [rest ->])] Hfull Hclose; [reflexivity|].
  cbn. rewrite session_run_app.
  destruct (session_run_prefix _ _ _ Hfull) as [st1 H1]. rewrite H1.
  apply Forall_app in Hclose as [Hd _].
  destruct (@session_run_alive n d (Sending n) st1 (or_introl eq_refl) H1 Hd)
    as [-> | ->]; now session_simpl.
Qed.

Lemma no_close_drained (n : nat) (frames : list Request) :
  Forall (fun ev => is_close ev = false) (drained n frames).
Proof.
  unfold drained. apply Forall_app. split.
  - apply Forall_map. now apply Forall_forall.
  - now repeat constructor.
Qed.

Lemma no_close_untar_events (n : nat) (p : string) (waiting : list Response) :
  Forall (fun ev => is_close ev = false) (untar_events n p waiting).
Proof.
  unfold untar_events. apply Forall_app. split; [|now repeat constructor].
  induction waiting as [|r l IH]; [constructor|].
  cbn. now repeat constructor.
Qed.

Lemma contacts_update_framed (env : Env) (contacts_path : string) (w : World) :
  framed (opened w) rpc_contacts_update
    (drained (opened w)
       [ContactsUpdateRequest (Payload_data (create_tar env [contacts_path]))])
    (contacts_update env contacts_path w).
Proof.
  apply framed_decorated. unfold contacts_update_async, unary_unary.
  apply framed_then_ret.
  eapply async_with_framed; [|apply prepared_at].
  eapply emits_as.
  - eapply emits_bind; [apply emits_fate | intro; cbv beta].
    eapply emits_bind; [apply emits_emit | intro; cbv beta].
    eapply emits_bind; [apply emits_emit | intro; cbv beta].
    apply emits_recv_message.
  - reflexivity.
Qed.

(** X1. Whatever the transport does, the record of install, push, pull,
    add_media, hid and contacts_update keeps to the protocol of a stream and
    leaves no stream open: a stream is opened only while none is open, frames
    are sent only on the open stream and only before its end-of-stream, which
    is signalled at most once, receives and unpacking come only after it, and
    every opened stream is closed, on failure too. *)
Theorem streams_follow_protocol (env : Env) (w : World) :
  (forall dest bundle,
      session_ok (call_events (install_to env dest bundle) w) = true) /\
  (forall src b d, session_ok (call_events (push env src b d) w) = true) /\
  (forall b s d, session_ok (call_events (pull env b s d) w) = true) /\
  (forall paths, session_ok (call_events (add_media env paths) w) = true) /\
  (forall evs, session_ok (call_events (hid env evs) w) = true) /\
  (forall path, session_ok (call_events (contacts_update env path) w) = true).
Proof.
  unfold session_ok, call_events.
  assert (Hframed : forall A n rpc full (o : Outcome A) st,
             framed n rpc full o ->
             session_run (Sending n) full = Some st ->
             Forall (fun ev => is_close ev = false) full ->
             match session_run Closed (events o) with
             | Some Closed => true
             | _ => false
             end = true).
  { intros A n rpc full o st Hf Hrun Hclose.
    now rewrite (framed_events_session (framed_framed_events Hf) Hrun Hclose). }
  repeat split.
  - intros dest bundle.
    destruct (install_to_shape env dest bundle w) as [H | (main & -> & H)].
    + now rewrite (framed_events_session H (session_run_drained _ _)
                     (no_close_drained _ _)).
    + cbn [app session_run session_step]. rewrite Nat.eqb_refl.
      now rewrite (framed_events_session H (session_run_drained _ _)
                     (no_close_drained _ _)).
  - intros. eapply Hframed;
      [apply push_framed | apply session_run_drained | apply no_close_drained].
  - intros b s d. eapply (Hframed _ _ _ _ _ (Receiving (opened w)));
      [apply pull_framed | |].
    + unfold pull_events.
      set (request := pull_request env b s d).
      set (tail := if is_local (discovered env) then [EvRecv (opened w)]
                   else untar_events (opened w) d (inbox w)).
      change (EvSend (opened w) request :: EvEnd (opened w) :: tail)
        with ([EvSend (opened w) request; EvEnd (opened w)] ++ tail)%list.
      rewrite session_run_app.
      assert (H2 : session_run (Sending (opened w))
                     [EvSend (opened w) request; EvEnd (opened w)]
                   = Some (Receiving (opened w))) by now session_simpl.
      rewrite H2. subst tail. destruct (is_local (discovered env)).
      * now session_simpl.
      * apply session_run_untar_events.
    + unfold pull_events. repeat constructor.
      destruct (is_local (discovered env));
        [now repeat constructor | apply no_close_untar_events].
  - intros. eapply Hframed;
      [ apply add_media_framed | apply session_run_drained
      | apply no_close_drained ].
  - intros evs. eapply (Hframed _ _ _ _ _ (Receiving (opened w)));
      [apply hid_framed | |].
    + rewrite session_run_app, session_run_drained. now session_simpl.
    + apply Forall_app. split; [apply no_close_drained | now repeat constructor].
  - intros. eapply Hframed;
      [ apply contacts_update_framed | apply session_run_drained
      | apply no_close_drained ].
Qed.

(** ** A failing send stops the push *)

Lemma raises_bind_left {A B} (P : World -> Prop) (m : M A) (k : A -> M B)
  (e : Exn) (evs : list Event) :
  raises P m e evs -> raises P (bind m k) e evs.
Proof.
  intros Hm w HP. destruct (Hm w HP) as [Hr He]. unfold bind.
  destruct (m w) as [r w1 e1]. cbn in *. subst. auto.
Qed.

Lemma raises_bind_right {A B} (P : World -> Prop) (m : M A) (k : A -> M B)
  (e : Exn) (e1 e2 : list Event) (Q : A -> World -> Prop) :
  runs P m e1 Q ->
  (forall a, raises (Q a) (k a) e e2) ->
  raises P (bind m k) e (e1 ++ e2).
Proof.
  intros Hm Hk w HP. destruct (Hm w HP) as (a & w1 & Em & HQ).
  destruct (Hk a w1 HQ) as [Hr He]. unfold bind. rewrite Em.
  destruct (k a w1) as [r w2 ev2]. cbn in *. subst. auto.
Qed.

Lemma raises_given {A} (fact : Prop) (P : World -> Prop) (m : M A) (e : Exn)
  (evs : list Event) :
  (fact -> raises P m e evs) -> raises (fun w => fact /\ P w) m e evs.
Proof. intros H w [Hf HP]. now apply H. Qed.

Lemma raises_as {A} (P : World -> Prop) (m : M A) (e : Exn)
  (evs evs' : list Event) :
  raises P m e evs -> evs = evs' -> raises P m e evs'.
Proof. now intros H <-. Qed.

Section TensePrimitives.

Variables (ci : CompanionInfo) (ib : list Response) (n : nat).
Variable fs : list (option Exn).

Lemma runs_fate_pass :
  runs (tense ci ib n (None :: fs)) fate [] (fun _ => tense ci ib n fs).
Proof.
  intros w (Ha & Hf & Hs). exists tt, (set_faults fs w).
  unfold fate. rewrite Hf. split; [reflexivity|].
  repeat split; try apply Ha. exact Hs.
Qed.

Lemma raises_fate (e : Exn) :
  raises (tense ci ib n (Some e :: fs)) fate e [].
Proof.
  intros w (Ha & Hf & Hs). unfold fate. rewrite Hf. auto.
Qed.

Lemma runs_send_message_pass (stream : nat) (request : Request) :
  runs (tense ci ib n (None :: fs)) (send_message stream request)
       [EvSend stream request] (fun _ => tense ci ib n fs).
Proof.
  unfold send_message.
  change [EvSend stream request] with ([] ++ [EvSend stream request])%list.
  eapply runs_bind; [apply runs_fate_pass | intro; cbv beta].
  intros w HP. exists tt, w. auto.
Qed.

Lemma raises_send_message (stream : nat) (request : Request) (e : Exn) :
  raises (tense ci ib n (Some e :: fs)) (send_message stream request) e [].
Proof. apply raises_bind_left, raises_fate. Qed.

Lemma runs_self_is_local_tense :
  runs (tense ci ib n fs) self_is_local []
       (fun b w => b = is_local ci /\ tense ci ib n fs w).
Proof.
  intros w HP. exists (is_local ci), w. split; [|auto].
  unfold self_is_local. destruct HP as ((-> & _) & _). reflexivity.
Qed.

Lemma runs_open_pass (rpc : Rpc) :
  runs (tense ci ib n (None :: fs)) (open rpc) [EvOpen n rpc]
       (fun s w => s = n /\ tense ci ib (S n) fs w).
Proof.
  intros w ((Hc & Hi & Ho) & Hf & Hs).
  exists n, (set_opened (S n) (set_faults fs w)).
  destruct (stub w) as [c|] eqn:E; [|contradiction].
  unfold open, self_stub, bind, fate. rewrite E. cbn. rewrite Hf. cbn.
  rewrite Ho. repeat split; try assumption. cbn. now rewrite E.
Qed.

(** A failure of the body leaves [async with] through the closing of the
    stream. *)
Lemma raises_async_with {A} (rpc : Rpc) (body : nat -> M A) (e : Exn)
  (evs : list Event) :
  raises (tense ci ib (S n) fs) (body n) e evs ->
  raises (tense ci ib n (None :: fs)) (async_with rpc body) e
         (EvOpen n rpc :: evs ++ [EvClose n]).
Proof.
  intros Hbody w HP.
  destruct (runs_open_pass rpc HP) as (s & w1 & Eo & -> & H1).
  destruct (Hbody w1 H1) as [Hr He].
  unfold async_with, bind, finally. rewrite Eo.
  destruct (body n w1) as [r w2 ev2]. cbn in *. subst. auto.
Qed.

End TensePrimitives.

(** When the send of the frame at position [j] is the first to fail, the
    loop raises, having sent the [j] frames before it and nothing after. *)
Lemma raises_sends {A} (ci : CompanionInfo) (ib : list Response) (n : nat)
  (stream : nat) (f : A -> Request) (e : Exn) (rest : list (option Exn)) :
  forall l j,
    j < List.length l ->
    raises (tense ci ib n (repeat None j ++ Some e :: rest))
           (for_each (fun x => send_message stream (f x)) l) e
           (map (fun x => EvSend stream (f x)) (firstn j l)).
Proof.
  induction l as [|x l IH]; intros j Hj; [simpl in Hj; lia|].
  destruct j as [|j]; cbn [for_each repeat app firstn map].
  - apply raises_bind_left, raises_send_message.
  - change (EvSend stream (f x)
            :: map (fun x => EvSend stream (f x)) (firstn j l))
      with ([EvSend stream (f x)]
            ++ map (fun x => EvSend stream (f x)) (firstn j l))%list.
    eapply raises_bind_right; [apply runs_send_message_pass | intro].
    apply IH. simpl in Hj. lia.
Qed.

Lemma raises_decorated {A} (env : Env) (func : M A) (e : Exn)
  (evs : list Event) (w : World) :
  raises (tense (discovered env) (inbox w) (opened w) (faults w)) func e evs ->
  result (log_and_handle_exceptions env func w) = Raise e /\
  events (log_and_handle_exceptions env func w) = evs.
Proof.
  intros H. destruct (decorated_run env func w) as (-> & -> & _).
  apply H. repeat split. discriminate.
Qed.

(** X2. Fail-fast.  When the stream of a push opens and the send of the frame
    at position [j] (the metadata frame is at position 0) is the first
    transport action to fail, the push raises that very failure, having sent
    exactly the [j] frames before it, in order; nothing is sent after the
    failure, end-of-stream is not signalled, nothing is received, and the
    stream is closed. *)
Theorem push_fails_fast (env : Env) (src_paths : list string)
  (bundle_id dest_path : string) (w : World) (j : nat) (e : Exn)
  (rest : list (option Exn)) :
  j < List.length (push_frames env src_paths bundle_id dest_path) ->
  faults w = (repeat None (S j) ++ Some e :: rest)%list ->
  call_result (push env src_paths bundle_id dest_path) w = Raise e /\
  call_events (push env src_paths bundle_id dest_path) w
  = (EvOpen (opened w) rpc_push
     :: map (EvSend (opened w))
            (firstn j (push_frames env src_paths bundle_id dest_path))
     ++ [EvClose (opened w)])%list.
Proof.
  intros Hj Hf. unfold call_result, call_events.
  apply raises_decorated. rewrite Hf. cbn [repeat app].
  apply raises_async_with.
  unfold push_frames in *. cbn [List.length] in Hj.
  destruct j as [|j]; cbn [repeat app firstn map].
  - apply raises_bind_left, raises_send_message.
  - destruct (is_local (discovered env)) eqn:E.
    + eapply raises_as.
      * eapply raises_bind_right; [apply runs_send_message_pass | intro].
        eapply raises_bind_right;
          [apply runs_self_is_local_tense | intro local; cbv beta].
        apply raises_given. intros ->. rewrite E.
        apply raises_bind_left, raises_sends.
        rewrite length_map in Hj. lia.
      * cbn. rewrite ?firstn_map, ?map_map. reflexivity.
    + eapply raises_as.
      * eapply raises_bind_right; [apply runs_send_message_pass | intro].
        eapply raises_bind_right;
          [apply runs_self_is_local_tense | intro local; cbv beta].
        apply raises_given. intros ->. rewrite E.
        apply raises_bind_left. unfold drain_to_stream, stream_map.
        apply raises_bind_left.
        apply raises_sends with (f := fun r : Request => r).
        rewrite !length_map in *. lia.
      * cbn. rewrite ?firstn_map, ?map_map. reflexivity.
Qed.

(** X2 on the example machine: a local push of two files whose second
    frame (the first path) fails to go out. *)
Lemma push_fails_fast_witness :
  call_result
    (push (example_env true) ["/tmp/a.txt"; "/tmp/b.txt"] "com.example.app"
          "Documents")
    (set_faults [None; None; Some (GRPCError "connection reset")]
                (fresh [example_response]))
  = Raise (GRPCError "connection reset") /\
  call_events
    (push (example_env true) ["/tmp/a.txt"; "/tmp/b.txt"] "com.example.app"
          "Documents")
    (set_faults [None; None; Some (GRPCError "connection reset")]
                (fresh [example_response]))
  = [EvOpen 0 rpc_push;
     EvSend 0 (PushRequest_inner "com.example.app" "Documents");
     EvClose 0].
Proof.
  apply push_fails_fast with (j := 1) (rest := []).
  - cbn. lia.
  - reflexivity.
Defined.

(** ** What an install returns *)

Lemma runs_install_stream (ci : CompanionInfo) (r : Response)
  (rest : list Response) (n : nat) (destination : Destination)
  (generator : list Request) :
  runs (calm_at ci (r :: rest) n)
    (async_with rpc_install (fun stream =>
       send_message stream (InstallRequest_destination destination) ;;
       response <- drain_to_stream stream generator ;;
       match response with
       | Some r => ret {| name := resp_name r; uuid := resp_uuid r |}
       | None => raise (AttributeError "name")
       end))
    (EvOpen n rpc_install
     :: drained n (InstallRequest_destination destination :: generator)
     ++ [EvClose n])
    (fun a _ => a = {| name := resp_name r; uuid := resp_uuid r |}).
Proof.
  apply runs_async_with.
  change (drained n (InstallRequest_destination destination :: generator))
    with ([EvSend n (InstallRequest_destination destination)]
          ++ drained n generator)%list.
  eapply runs_bind; [apply runs_send_message | intro; cbv beta].
  rewrite <- (app_nil_r (drained n generator)).
  eapply runs_bind; [apply runs_drain_to_stream | intro response; cbv beta].
  apply runs_given. intros ->. cbn [hd_error].
  intros w HP. eexists. exists w. split; reflexivity.
Qed.

(** X3. When nothing fails and the companion answers, an install whose
    source exists returns the artifact named by the companion's response:
    its name and its uuid are those of the first message received; and the
    frames sent are the destination of the entry point followed by the
    payload frames. *)
Theorem install_returns_artifact (env : Env) (destination : Destination)
  (bundle : Bundle) (w : World) (r : Response) (rest : list Response) :
  source_missing env bundle = false ->
  inbox w = r :: rest ->
  call_result (install_to env destination bundle) (calm w)
  = Return {| name := resp_name r; uuid := resp_uuid r |} /\
  sent (call_events (install_to env destination bundle) (calm w))
  = InstallRequest_destination destination
    :: strategy_frames env bundle (is_local (discovered env)).
Proof.
  intros Hm Hi. unfold call_result, call_events. split.
  - assert (H : exists evs,
               runs (calm_at (discovered env) (inbox w) (opened w))
                    (_install_to_destination env bundle destination) evs
                    (fun a _ =>
                       a = {| name := resp_name r; uuid := resp_uuid r |})).
    { rewrite Hi. unfold _install_to_destination, source_missing in *.
      destruct bundle as [s|io].
      - destruct (truthy (urlparse_scheme env s)).
        + eexists. eapply runs_bind;
            [apply runs_async_with, runs_ret | intro g].
          apply runs_given. intros ->. apply runs_install_stream.
        + destruct (resolve_strict env s) as [p|]; [|discriminate].
          destruct (is_local (discovered env)) eqn:E.
          * eexists. eapply runs_bind; [|intro g].
            -- eapply runs_bind;
                 [apply runs_self_is_local | intro b; cbv beta].
               apply runs_given. intros ->. rewrite E.
               apply runs_async_with, runs_ret.
            -- apply runs_given. intros ->. apply runs_install_stream.
          * eexists. eapply runs_bind; [|intro g].
            -- eapply runs_bind;
                 [apply runs_self_is_local | intro b; cbv beta].
               apply runs_given. intros ->. rewrite E. apply runs_ret.
            -- apply runs_given. intros ->. apply runs_install_stream.
      - eexists. eapply runs_bind; [apply runs_ret | intro g].
        apply runs_given. intros ->. apply runs_install_stream. }
    destruct H as [evs H].
    destruct (runs_decorated env w H) as (a & Hr & _ & ->). exact Hr.
  - rewrite install_calm. unfold install_events, source_missing in *.
    fold (install_frames env destination bundle).
    destruct bundle as [s|io]; [|apply sent_install_stream].
    destruct (truthy (urlparse_scheme env s));
      [cbn [sent]; apply sent_install_stream|].
    destruct (resolve_strict env s) as [p|]; [|discriminate].
    destruct (is_local (discovered env));
      cbn [sent]; apply sent_install_stream.
Qed.

(** X3 on the example machine: an install from a URL. *)
Lemma install_returns_artifact_witness :
  call_result
    (install_to (example_env true) APP
                (Bundle_str "https://example.com/App.ipa"))
    (calm (fresh [example_response]))
  = Return {| name := "App"; uuid := "0001" |} /\
  sent (call_events
          (install_to (example_env true) APP
                      (Bundle_str "https://example.com/App.ipa"))
          (calm (fresh [example_response])))
  = [InstallRequest_destination APP;
     InstallRequest_payload (Payload_url "https://example.com/App.ipa")].
Proof.
  apply (@install_returns_artifact (example_env true) APP
           (Bundle_str "https://example.com/App.ipa")
           (fresh [example_response]) example_response []);
    reflexivity.
Defined.

(** ** hid *)

(** X4. Whatever the transport does, the frames hid sends are a prefix of
    the translations of its events, in order.  When nothing fails, hid
    returns, having opened one stream, sent one frame per event in order,
    signalled end-of-stream once, and received twice: once at the end of the
    drain and once more after it. *)
Theorem hid_frames_and_receives (env : Env) (event_iterator : list HIDEvent)
  (w : World) :
  is_prefix (sent (call_events (hid env event_iterator) w))
            (map event_to_grpc event_iterator)
  /\ call_result (hid env event_iterator) (calm w) = Return tt
  /\ sent (call_events (hid env event_iterator) (calm w))
     = map event_to_grpc event_iterator
  /\ opens (call_events (hid env event_iterator) (calm w)) = 1
  /\ ends (call_events (hid env event_iterator) (calm w)) = 1
  /\ receives (call_events (hid env event_iterator) (calm w)) = 2.
Proof.
  unfold call_events, call_result.
  destruct (hid_calm env event_iterator w) as [Hr He].
  assert (Hsent : forall n frames,
             sent (drained n frames ++ [EvRecv n]) = frames).
  { intros n frames. rewrite sent_app, sent_drained. apply app_nil_r. }
  split; [|split; [exact Hr|]].
  - rewrite <- (Hsent (opened w) (map event_to_grpc event_iterator)).
    eapply framed_sent, hid_framed.
  - rewrite He.
    set (body := (drained (opened w) (map event_to_grpc event_iterator)
                  ++ [EvRecv (opened w)])%list).
    change (EvOpen (opened w) rpc_hid :: body ++ [EvClose (opened w)])%list
      with ([EvOpen (opened w) rpc_hid] ++ body ++ [EvClose (opened w)])%list.
    repeat split.
    + rewrite !sent_app. subst body. rewrite Hsent. cbn. apply app_nil_r.
    + rewrite !opens_app. subst body. now rewrite opens_app, opens_drained.
    + unfold ends. rewrite !filter_app, !length_app. subst body.
      rewrite filter_app, length_app.
      fold (ends (drained (opened w) (map event_to_grpc event_iterator))).
      now rewrite ends_drained.
    + rewrite !receives_app. subst body.
      now rewrite receives_app, receives_drained.
Qed.

(** ** A stream that does not open *)

Lemma raises_open (ci : CompanionInfo) (ib : list Response) (n : nat)
  (fs : list (option Exn)) (rpc : Rpc) (e : Exn) :
  raises (tense ci ib n (Some e :: fs)) (open rpc) e [].
Proof.
  intros w (_ & Hf & Hs).
  destruct (stub w) as [c|] eqn:E; [|contradiction].
  unfold open, self_stub, bind, fate. rewrite E. cbn. rewrite Hf. auto.
Qed.

Lemma raises_async_with_open {A} (ci : CompanionInfo) (ib : list Response)
  (n : nat) (fs : list (option Exn)) (rpc : Rpc) (body : nat -> M A)
  (e : Exn) :
  raises (tense ci ib n (Some e :: fs)) (async_with rpc body) e [].
Proof. apply raises_bind_left, raises_open. Qed.

(** X5. When the first transport action of a call, the opening of its
    stream, fails, the call raises that very failure and leaves no trace:
    no stream is opened, nothing is sent, received or closed.  This holds
    for push, pull, add_media, hid and contacts_update, and for an install
    whose source exists. *)
Theorem open_failure_leaves_no_trace (env : Env) (w : World) (e : Exn)
  (rest : list (option Exn)) :
  faults w = Some e :: rest ->
  (forall src b d,
      call_result (push env src b d) w = Raise e /\
      call_events (push env src b d) w = []) /\
  (forall b s d,
      call_result (pull env b s d) w = Raise e /\
      call_events (pull env b s d) w = []) /\
  (forall paths,
      call_result (add_media env paths) w = Raise e /\
      call_events (add_media env paths) w = []) /\
  (forall evs,
      call_result (hid env evs) w = Raise e /\
      call_events (hid env evs) w = []) /\
  (forall path,
      call_result (contacts_update env path) w = Raise e /\
      call_events (contacts_update env path) w = []) /\
  (forall dest bundle,
      source_missing env bundle = false ->
      call_result (install_to env dest bundle) w = Raise e /\
      call_events (install_to env dest bundle) w = []).
Proof.
  intros Hf. unfold call_result, call_events.
  split; [|split; [|split; [|split; [|split]]]];
    intros; apply raises_decorated; rewrite Hf.
  1: apply raises_async_with_open.
  1: apply raises_bind_left, raises_async_with_open.
  1: apply raises_async_with_open.
  1: apply raises_async_with_open.
  1: apply raises_bind_left, raises_async_with_open.
  unfold _install_to_destination, source_missing in *;
    destruct bundle as [s|io];
    [ destruct (truthy (urlparse_scheme env s));
      [ apply raises_bind_left, raises_async_with_open
      | destruct (resolve_strict env s) as [p|]; [|discriminate];
        destruct (is_local (discovered env)) eqn:E;
        [ apply raises_bind_left;
          eapply raises_as;
          [ eapply raises_bind_right;
            [ apply runs_self_is_local_tense | intro b; cbv beta ];
            apply raises_given; intros ->; rewrite E;
            apply raises_async_with_open
          | reflexivity ]
        | eapply raises_as;
          [ eapply raises_bind_right;
            [ eapply runs_bind;
              [ apply runs_self_is_local_tense | intro b; cbv beta ];
              apply runs_given; intros ->; rewrite E; apply runs_ret
            | intro g; apply raises_given; intros _;
              apply raises_async_with_open ]
          | reflexivity ] ] ]
    | eapply raises_as;
      [ eapply raises_bind_right;
        [ apply runs_ret
        | intro g; apply raises_given; intros _;
          apply raises_async_with_open ]
      | reflexivity ] ].
Qed.

(** X5 on the example machine: the companion refuses the connection. *)
Lemma open_failure_leaves_no_trace_witness :
  let w := set_faults [Some (GRPCError "refused")] (fresh []) in
  (call_result (hid (example_env true) []) w = Raise (GRPCError "refused") /\
   call_events (hid (example_env true) []) w = []) /\
  (call_result (install_to (example_env true) APP
                           (Bundle_str "/tmp/App.app")) w
   = Raise (GRPCError "refused") /\
   call_events (install_to (example_env true) APP
                           (Bundle_str "/tmp/App.app")) w = []).
Proof.
  intros w.
  destruct (@open_failure_leaves_no_trace (example_env true) w
              (GRPCError "refused") [] eq_refl)
    as (_ & _ & _ & Hhid & _ & Hinstall).
  split; [apply Hhid | apply Hinstall; reflexivity].
Defined.

(** ** The HID shortcuts *)

(** Awaiting a decorated method runs its body on the prepared client. *)
Lemma decorated_eq {A} (env : Env) (func : M A) (w : World) :
  log_and_handle_exceptions env func w = func (prepared env w).
Proof.
  unfold log_and_handle_exceptions, log_call, func_wrapper, try_except, bind.
  cbn. fold (prepared env w). now destruct (func (prepared env w)).
Qed.

(** A decorated method called from a decorated method: the companion is
    looked up again, to the same effect. *)
Lemma decorated_twice {A} (env : Env) (func : M A) (w : World) :
  log_and_handle_exceptions env (log_and_handle_exceptions env func) w
  = log_and_handle_exceptions env func w.
Proof. now rewrite !decorated_eq. Qed.

Lemma extend_flat_map {A B} (f : A -> list B) (l : list A) (acc : list B) :
  fold_left (fun events x => (events ++ f x)%list) l acc
  = (acc ++ flat_map f l)%list.
Proof.
  revert acc. induction l as [|x l IH]; intro acc; cbn.
  - now rewrite app_nil_r.
  - now rewrite IH, app_assoc.
Qed.

Section ShortcutFacts.

Variable env : Env.
Variables float HIDButtonType : Type.
Variable iterator_to_async_iterator : list HIDEvent -> list HIDEvent.
Variable tap_to_events : Z -> Z -> option float -> list HIDEvent.
Variable button_press_to_events :
  HIDButtonType -> option float -> list HIDEvent.
Variable key_press_to_events : Z -> option float -> list HIDEvent.
Variable default_duration : option float.
Variable text_to_events : string -> list HIDEvent.
Variable swipe_to_events : Z * Z -> Z * Z -> option Z -> list HIDEvent.

(** X6. Each HID shortcut is one hid call on the events of its builder:
    send_events, tap, button, key, text and swipe have the result, the record
    of stream actions and the final client state of hid applied to the
    builder's events, on every transport; the decorators nested on the way
    (three deep for tap) add nothing and translate nothing. *)
Theorem shortcuts_are_hid (w : World) :
  (forall events,
      @send_events env iterator_to_async_iterator events w
      = hid env (iterator_to_async_iterator events) w) /\
  (forall x y duration,
      @tap env float iterator_to_async_iterator tap_to_events x y duration w
      = hid env (iterator_to_async_iterator (tap_to_events x y duration)) w) /\
  (forall button_type duration,
      @button env float HIDButtonType iterator_to_async_iterator
              button_press_to_events button_type duration w
      = hid env (iterator_to_async_iterator
                   (button_press_to_events button_type duration)) w) /\
  (forall keycode duration,
      @key env float iterator_to_async_iterator key_press_to_events
           keycode duration w
      = hid env (iterator_to_async_iterator
                   (key_press_to_events keycode duration)) w) /\
  (forall t,
      @text env iterator_to_async_iterator text_to_events t w
      = hid env (iterator_to_async_iterator (text_to_events t)) w) /\
  (forall p_start p_end delta,
      @swipe env iterator_to_async_iterator swipe_to_events
             p_start p_end delta w
      = hid env (iterator_to_async_iterator
                   (swipe_to_events p_start p_end delta)) w).
Proof.
  split; [|split; [|split; [|split; [|split]]]]; intros;
    unfold tap, tap_async, button, button_async, key, key_async, text,
      text_async, swipe, swipe_async, send_events, send_events_async, hid;
    now rewrite !decorated_eq.
Qed.

(** X7. key_sequence is one hid call on the concatenation, in the order of
    the key codes, of the press events of each key, built with the default
    duration; in particular a sequence of one key code behaves as key with
    the default duration, and the empty sequence still makes the hid call,
    with no events. *)
Theorem key_sequence_is_hid (w : World) :
  (forall keys,
      @key_sequence env float iterator_to_async_iterator key_press_to_events
                    default_duration keys w
      = hid env (iterator_to_async_iterator
                   (flat_map (fun k => key_press_to_events k default_duration)
                             keys)) w) /\
  (forall keycode,
      @key_sequence env float iterator_to_async_iterator key_press_to_events
                    default_duration [keycode] w
      = @key env float iterator_to_async_iterator key_press_to_events
             keycode default_duration w) /\
  @key_sequence env float iterator_to_async_iterator key_press_to_events
                default_duration [] w
  = hid env (iterator_to_async_iterator []) w.
Proof.
  assert (H : forall keys,
             @key_sequence env float iterator_to_async_iterator
                           key_press_to_events default_duration keys w
             = hid env (iterator_to_async_iterator
                          (flat_map
                             (fun k => key_press_to_events k default_duration)
                             keys)) w).
  { intros keys.
    unfold key_sequence, key_sequence_async, send_events, send_events_async,
      hid.
    now rewrite !decorated_eq, extend_flat_map. }
  split; [exact H | split; [|apply H]].
  intros keycode. rewrite H. cbn [flat_map]. rewrite app_nil_r.
  unfold key, key_async, send_events, send_events_async, hid.
  now rewrite !decorated_eq.
Qed.

End ShortcutFacts.

(** ** approve *)

Lemma getitem_cases {V} (d : list (string * V)) (key : string) :
  match getitem d key with
  | inr v => In (key, v) d
  | inl (KeyError k) => k = key /\ ~ In key (map fst d)
  end.
Proof.
  induction d as [|[k v] d IH]; cbn; [auto|].
  destruct (k =? key)%string eqn:E.
  - apply String.eqb_eq in E. subst. now left.
  - apply String.eqb_neq in E.
    destruct (getitem d key) as [[k']|v']; [|now right].
    destruct IH as [-> IH]. split; [reflexivity|]. now intros [H|H].
Qed.

(** X8. The request approve builds carries the bundle id and, for each
    permission in the order of iteration, the value APPROVE_MAP gives it.
    approve accepts the names that are keys of APPROVE_MAP and no other: if
    some permission is not a key, no request is built (the stub is not
    called) and the KeyError names the first such permission. *)
Theorem approve_request_cases (bundle_id : string)
  (permissions : list string) :
  match approve_request bundle_id permissions with
  | inr req =>
      approve_bundle_id req = bundle_id /\
      Forall2 (fun p v => In (p, v) APPROVE_MAP)
              permissions (approve_permission_values req)
  | inl (KeyError k) =>
      exists before after,
        permissions = (before ++ k :: after)%list /\
        ~ In k (map fst APPROVE_MAP) /\
        Forall (fun p => In p (map fst APPROVE_MAP)) before
  end.
Proof.
  unfold approve_request.
  assert (H : match approve_permissions permissions with
              | inr vs =>
                  Forall2 (fun p v => In (p, v) APPROVE_MAP) permissions vs
              | inl (KeyError k) =>
                  exists before after,
                    permissions = (before ++ k :: after)%list /\
                    ~ In k (map fst APPROVE_MAP) /\
                    Forall (fun p => In p (map fst APPROVE_MAP)) before
              end).
  { induction permissions as [|p ps IH]; cbn [approve_permissions];
      [constructor|].
    pose proof (getitem_cases APPROVE_MAP p) as Hp.
    destruct (getitem APPROVE_MAP p) as [[k]|v].
    - destruct Hp as [-> Hp]. exists [], ps. repeat split; auto.
    - destruct (approve_permissions ps) as [[k]|vs].
      + destruct IH as (before & after & -> & Hk & Hb).
        exists (p :: before), after. repeat split; auto.
        constructor; [|exact Hb].
        change p with (fst (p, v)). now apply in_map.
      + now constructor. }
  destruct (approve_permissions permissions) as [[k]|vs]; cbn; auto.
Qed.

(** ** provide_client *)

(** X9. However often provide_client is awaited on a client, and whether or
    not the daemon spawner fails on the way, at most one channel to the
    daemon is ever constructed.  A call raises exactly when the spawner
    does, and then leaves the client as it was; otherwise it returns a
    companion client that is local, carries the target udid of the
    constructor and talks through the one channel, built with the host and
    the port of the constructor. *)
Theorem provide_client_one_channel (port : N) (host : string)
  (target_udid : option string) (force_kill_daemon : bool)
  (spawns : list (option Exn)) (spawned : option Exn) :
  let self :=
    fold_left (fun s sp => snd (Daemon.provide_client sp s)) spawns
              (Daemon.init port host target_udid force_kill_daemon) in
  Daemon.channels self <= 1 /\
  match Daemon.provide_client spawned self with
  | (Return c, self') =>
      spawned = None /\
      Daemon.channels self' = 1 /\
      Daemon.client_is_local c = true /\
      Daemon.client_udid c = target_udid /\
      Daemon.client_stub c
      = Some {| Daemon.stub_channel :=
                  {| Daemon.serial := 0;
                     Daemon.channel_host := host;
                     Daemon.channel_port := port |} |}
  | (Raise e, self') => spawned = Some e /\ self' = self
  end.
Proof.
  set (c0 := {| Daemon.serial := 0; Daemon.channel_host := host;
                Daemon.channel_port := port |}).
  set (Inv := fun s : Daemon.Client =>
         Daemon.self_port s = port /\ Daemon.self_host s = host /\
         Daemon.self_target_udid s = target_udid /\
         ((Daemon.daemon_channel s = None /\ Daemon.daemon_stub s = None /\
           Daemon.channels s = 0) \/
          (Daemon.daemon_channel s = Some c0 /\
           Daemon.daemon_stub s = Some {| Daemon.stub_channel := c0 |} /\
           Daemon.channels s = 1))).
  assert (Hstep : forall sp s, Inv s ->
                               Inv (snd (Daemon.provide_client sp s))).
  { intros [e|] s (Hp & Hh & Hu & Hc); [repeat split; assumption|].
    unfold Daemon.provide_client.
    destruct Hc as [(Hc & Hs & Hn) | (Hc & Hs & Hn)]; rewrite Hc, ?Hs; cbn.
    - repeat split; try assumption. right.
      rewrite Hn, Hp, Hh. repeat split.
    - repeat split; try assumption. right. repeat split; assumption. }
  assert (Hall : forall s, Inv s ->
                   Inv (fold_left
                          (fun s sp => snd (Daemon.provide_client sp s))
                          spawns s)).
  { induction spawns as [|sp l IH]; intros s Hs; [exact Hs|].
    cbn. apply IH, Hstep, Hs. }
  intros self.
  assert (Hself : Inv self).
  { apply Hall. repeat split. left. repeat split. }
  destruct Hself as (Hp & Hh & Hu & Hc). split.
  - destruct Hc as [(_ & _ & ->) | (_ & _ & ->)]; lia.
  - destruct spawned as [e|]; [now split|].
    unfold Daemon.provide_client.
    destruct Hc as [(Hc & Hs & Hn) | (Hc & Hs & Hn)]; rewrite Hc, ?Hs; cbn.
    + rewrite Hn, Hp, Hh. repeat split. exact Hu.
    + repeat split; assumption.
Qed.

(** ** contacts_update and the locality of the companion *)

Lemma create_tar_with_locality (local : bool) (env : Env)
  (paths : list string) :
  create_tar (with_locality local env) paths = create_tar env paths.
Proof. reflexivity. Qed.

(** X10. On every transport, failing or not, contacts_update behaves the
    same whether the companion is local or remote: same result, same record
    of stream actions.  The frames it sends are a prefix of the one request
    that carries the whole archive. *)
Theorem contacts_update_ignores_locality (env : Env) (local : bool)
  (contacts_path : string) (w : World) :
  call_result (contacts_update (with_locality local env) contacts_path) w
  = call_result (contacts_update env contacts_path) w /\
  call_events (contacts_update (with_locality local env) contacts_path) w
  = call_events (contacts_update env contacts_path) w /\
  is_prefix
    (sent (call_events (contacts_update env contacts_path) w))
    [ContactsUpdateRequest
       (Payload_data (create_tar env [contacts_path]))].
Proof.
  unfold call_result, call_events. split; [|split].
  1, 2: unfold contacts_update; rewrite !decorated_eq;
    unfold contacts_update_async; rewrite create_tar_with_locality;
    generalize (ContactsUpdateRequest
                  (Payload_data (create_tar env [contacts_path])));
    intro request; destruct w as [ci ch st fs ib n];
    destruct fs as [|[e1|] [|[e2|] [|[e3|] fs]]]; reflexivity.
  pose proof (framed_sent (contacts_update_framed env contacts_path w)) as H.
  unfold drained in H. rewrite sent_app, sent_sends in H. cbn in H.
  exact H.
Qed.

(** ** Where failures come from *)




Lemma relays_weaken {A} (X X' : Exn -> Prop) (m : M A) :
  (forall e, X e -> X' e) -> relays X m -> relays X' m.
Proof.
  intros HX Hm w Hw. destruct (Hm w Hw) as [Hret Hraise].
  split; [exact Hret|]. intros e H. destruct (Hraise e H); auto.
Qed.















